(** * A streaming infix calculator: [parse-math-expr.c] and [compute-math-expr.c]

    The program reads one arithmetic expression from standard input, a
    character at a time, and folds it into a [double] through a window of three
    operands and three operators.  This file embeds the two C files as Rocq
    functions and states the properties of the evaluator over that embedding.

    Conventions of the embedding:
    - a C [double] is a primitive binary64 float ([PrimFloat.float]);
    - a C [char] holding text is an [ascii]; the status codes of the program
      are the characters the source uses (['s'], ['o'], ['c'], ['n'], ['>']);
    - standard input is the [string] of the characters not read yet, and
      [getchar] is a function from that string to a character and the rest;
    - the three-slot arrays [operands] and [operators] are records of three
      fields read and written by index;
    - the arithmetic of the source is that of binary64, each operation
      rounded on its own; [pow] of the C library is a parameter of the
      development;
    - [window_at], a [char] that holds 0 to 3, is a [nat]; the one [char]
      that can overflow, the digit counter of [parse_operand], is an
      integer wrapped to eight bits;
    - [printf] calls (the diagnostics of [arithmetic_op] and [shift_window])
      write to standard output only and are left out. *)

From Stdlib Require Import ZArith String Ascii Bool List Lia Floats.
Import ListNotations.

Local Open Scope string_scope.
Local Open Scope char_scope.

(** ** Characters *)

Module Chars.

(** The characters the source names by escape sequences. *)
Definition newline : ascii := "010".
Definition tab : ascii := "009".

(** [(char)EOF]: [getchar] returns the [int] -1 at end of input, and the
    source stores it in a [char]; only the low eight bits remain. *)
Definition eof : ascii := "255".

(** [c >= '0' && c <= '9'].  The test has the same outcome whether [char] is
    signed or not: a character above 127 fails one of the two comparisons. *)
Definition is_digit (c : ascii) : bool := ("0" <=? c) && (c <=? "9").

(** [c - '0'], as the [int] the source computes. *)
Definition digit_value (c : ascii) : Z := Z.of_N (N_of_ascii c) - 48.

(** One-character string, and the line end that closes an expression. *)
Definition str (c : ascii) : string := String c EmptyString.
Definition LF : string := str newline.

End Chars.
Import Chars.

(** ** Numbers *)

Module Num.

Definition double := float.

(** The conversion [(double)n] of an [int]; exact for the values the
    program converts (digits, ten, and the 8-bit exponent counter). *)
Definition double_of_int (n : Z) : double :=
  match n with
  | Z0 => 0%float
  | Zpos _ => of_uint63 (Uint63.of_Z n)
  | Zneg p => (- of_uint63 (Uint63.of_Z (Zpos p)))%float
  end.

(** The value a [char] holds after an [int] is stored into it: eight bits,
    two's complement (the [char] of the usual x86 ABIs is signed). *)
Definition char_of_int (n : Z) : Z := (n + 128) mod 256 - 128.

(** Two doubles denote the same number when they are identical (this
    covers NaN) or compare equal with C's [==] (this identifies the two
    zeros). *)
Definition same_number (x y : double) : Prop :=
  x = y \/ (x =? y)%float = true.

End Num.
Import Num.

(** ** The window: three operands, three operators, a cursor *)

Module Arr.

Record array3 (A : Type) : Type := Array3 { slot0 : A; slot1 : A; slot2 : A }.
Arguments Array3 {A} _ _ _.
Arguments slot0 {A} _.
Arguments slot1 {A} _.
Arguments slot2 {A} _.

(** [a[i]].  The program only indexes with 0, 1 and 2. *)
Definition get {A} (a : array3 A) (i : nat) : A :=
  match i with
  | 0 => slot0 a
  | 1 => slot1 a
  | _ => slot2 a
  end.

(** [a[i] = v]. *)
Definition put {A} (a : array3 A) (i : nat) (v : A) : array3 A :=
  match i with
  | 0 => Array3 v (slot1 a) (slot2 a)
  | 1 => Array3 (slot0 a) v (slot2 a)
  | 2 => Array3 (slot0 a) (slot1 a) v
  | _ => a
  end.

End Arr.
Import Arr.

Record window : Type := Window {
  operands : array3 double;
  operators : array3 ascii;
  window_at : nat
}.

Definition set_operand (w : window) (i : nat) (v : double) : window :=
  Window (put (operands w) i v) (operators w) (window_at w).

Definition set_operator (w : window) (i : nat) (c : ascii) : window :=
  Window (operands w) (put (operators w) i c) (window_at w).

Definition set_window_at (w : window) (n : nat) : window :=
  Window (operands w) (operators w) n.

(** The locals of [calculate] as it declares them. *)
Definition init_window : window :=
  Window (Array3 0%float 0%float 0%float) (Array3 "+" "+" "+") 0.

(** The five arithmetic operators. *)
Definition is_arith_op (c : ascii) : bool :=
  (c =? "+") || (c =? "-") || (c =? "*") || (c =? "/") || (c =? "^").

(** ** compute-math-expr.c: the collapse of the window *)

Section Evaluator.

(** [pow] of [<math.h>]. *)
Variable pow : double -> double -> double.

Definition contains_nest_op (ops : array3 ascii) : bool :=
  (get ops 0 =? "(") || (get ops 1 =? "(") || (get ops 2 =? "(").

Definition highest_order_op (ops : array3 ascii) : nat :=
  if get ops 1 =? "^" then 1
  else if get ops 0 =? "^" then 0
  else if (get ops 0 =? "*") || (get ops 0 =? "/") then 0
  else if (get ops 1 =? "*") || (get ops 1 =? "/") then 1
  else 0.

(** [arithmetic_op(operator, a, b, result)] as the new value of [*result];
    [old] is the value [*result] had, which the [default] branch leaves. *)
Definition arithmetic_op (operator : ascii) (a b old : double) : double :=
  if operator =? "+" then (a + b)%float
  else if operator =? "-" then (a - b)%float
  else if operator =? "*" then (a * b)%float
  else if operator =? "/" then (a / b)%float
  else if operator =? "^" then pow a b
  else old.

(** [arithmetic_op(op, &operands[i], &operands[j], &operands[k])]. *)
Definition apply_op (op : ascii) (i j k : nat) (w : window) : window :=
  set_operand w k
    (arithmetic_op op (get (operands w) i) (get (operands w) j) (get (operands w) k)).

Definition shift_window (mode : nat) (w : window) : window :=
  let w :=
    match mode with
    | 1 =>
        let w := set_operand w 1 0%float in
        let w := set_operator w 0 (get (operators w) 2) in
        let w := set_operator w 1 "+" in
        set_window_at w 1
    | 2 =>
        let w := set_operand w 1 (get (operands w) 2) in
        let w := set_operator w 0 (get (operators w) 1) in
        let w := set_operator w 1 (get (operators w) 2) in
        set_window_at w 2
    | 3 =>
        let w := set_operator w 1 (get (operators w) 2) in
        set_window_at w 2
    | _ => w
    end in
  let w := set_operand w 2 0%float in
  set_operator w 2 "+".

(** The operators are read through [ops]: no [arithmetic_op] writes them,
    and [shift_window] comes last on every path. *)
Definition compute (w : window) : window :=
  let ops := operators w in
  let preced_id := highest_order_op ops in
  if (get ops 2 =? "+") || (get ops 2 =? "-") then
    if (preced_id =? 0)%nat then
      let w := apply_op (get ops preced_id) 0 1 0 w in
      let w := apply_op (get ops 1) 0 2 0 w in
      shift_window 1 w
    else if (preced_id =? 1)%nat then
      let w := apply_op (get ops preced_id) 1 2 1 w in
      let w := apply_op (get ops 0) 0 1 0 w in
      shift_window 2 w
    else w
  else if (get ops 2 =? "*") || (get ops 2 =? "/") || (get ops 2 =? "^") then
    if (preced_id =? 0)%nat && ((get ops 0 =? "*") || (get ops 0 =? "/")) then
      let w := apply_op (get ops preced_id) 0 1 0 w in
      if (get ops 1 =? "*") || (get ops 1 =? "/") then
        let w := apply_op (get ops 1) 0 2 0 w in
        shift_window 1 w
      else shift_window 2 w
    else if (preced_id =? 1)%nat
            && ((get ops 1 =? "*") || (get ops 1 =? "/") || (get ops 1 =? "^")) then
      let w := apply_op (get ops preced_id) 1 2 1 w in
      shift_window 3 w
    else
      let w := apply_op (get ops preced_id) 0 1 0 w in
      shift_window 2 w
  else w.

(** ** parse-math-expr.c: the lexer *)

(** [getchar()] stored into a [char]. *)
Definition getchar (inp : string) : ascii * string :=
  match inp with
  | EmptyString => (eof, EmptyString)
  | String c rest => (c, rest)
  end.

(** One pass through the body of the [while] loop of [parse_operand], up to
    its closing [c = getchar()]: [None] is the [return 's'] on a second
    dot, [Some] carries the new [hasFractionalPart], [exponent] and
    [*operand].  [++exponent] is an increment of a [char]. *)
Definition operand_step (c : ascii) (hasFractionalPart : bool) (exponent : Z)
    (operand : double) : option (bool * Z * double) :=
  if is_digit c then
    if hasFractionalPart then
      let exponent := char_of_int (exponent + 1) in
      Some (hasFractionalPart, exponent,
            (operand + double_of_int (digit_value c)
                       / pow 10 (double_of_int exponent))%float)
    else
      Some (hasFractionalPart, exponent,
            (operand * 10 + double_of_int (digit_value c))%float)
  else if hasFractionalPart then None
  else Some (true, exponent, operand).

(** The [while] loop of [parse_operand] and the two statements after it.
    [c] is the character just read and [inp] what follows it; the
    [getchar] that ends the body is the [match] on [inp], and at the end of
    input it yields [eof], on which the loop test fails. *)
Fixpoint operand_loop (inp : string) (c : ascii) (hasFractionalPart : bool)
    (exponent : Z) (operand sign : double) {struct inp} : ascii * double * string :=
  if is_digit c || (c =? ".") then
    match operand_step c hasFractionalPart exponent operand with
    | None => ("s", operand, inp)
    | Some (hasFractionalPart, exponent, operand) =>
        match inp with
        | EmptyString => (eof, (operand * sign)%float, EmptyString)
        | String c inp => operand_loop inp c hasFractionalPart exponent operand sign
        end
    end
  else (c, (operand * sign)%float, inp).

(** [parse_operand(c, operand)]: the character returned, the value left in
    [*operand], and the input left. *)
Definition parse_operand (c : ascii) (inp : string) : ascii * double * string :=
  let scan (sign operand : double) (hasFractionalPart : bool) :=
    let (c, inp) := getchar inp in
    operand_loop inp c hasFractionalPart 0 operand sign in
  if c =? "-" then scan (-1)%float 0%float false
  else if c =? "+" then scan 1%float 0%float false
  else if is_digit c then scan 1%float (double_of_int (digit_value c)) false
  else if c =? "." then scan 1%float 0%float true
  else if (c =? "*") || (c =? "/") then ("s", 0%float, inp)
  else if c =? "(" then ("o", 0%float, inp)
  else (c, 0%float, inp).

(** [while (c == ' ' || c == '\t') c = getchar();] *)
Fixpoint skip_blanks (inp : string) (c : ascii) {struct inp} : ascii * string :=
  if (c =? " ") || (c =? tab) then
    match inp with
    | EmptyString => (eof, EmptyString)
    | String c inp => skip_blanks inp c
    end
  else (c, inp).

(** The loop of [parse_expr], which runs while [window_at] is below 3;
    [room] is 3 minus [window_at], which every pass that stays in the loop
    lowers by one.  The five operator cases of the [switch] store the
    character they matched. *)
Fixpoint parse_expr_loop (room : nat) (w : window) (inp : string)
    : ascii * window * string :=
  match room with
  | O => (">", w, inp)
  | S room =>
      let (c, inp) := getchar inp in
      let '(c, v, inp) := parse_operand c inp in
      let w := set_operand w (window_at w) v in
      if c =? "s" then ("s", w, inp)
      else
        let (c, inp) := skip_blanks inp c in
        if is_arith_op c then
          let w := set_operator w (window_at w) c in
          parse_expr_loop room (set_window_at w (window_at w + 1)) inp
        else if c =? "(" then ("o", set_operator w (window_at w) "(", inp)
        else if c =? "o" then ("o", w, inp)
        else if c =? ")" then ("c", w, inp)
        else if c =? newline then ("n", w, inp)
        else ("s", w, inp)
  end.

Definition parse_expr (w : window) (inp : string) : ascii * window * string :=
  parse_expr_loop (3 - window_at w) w inp.

(** ** compute-math-expr.c: the evaluator *)

(** What [calculate] hands back: its return value, the status it left in
    [*status], and the input left. *)
Definition outcome : Type := double * ascii * string.

(** The [do ... while] loop of [calculate], from the window [w].  Every
    pass and every nested call of [calculate] takes one unit of [fuel];
    [None] means the fuel ran out.  A nested call is the same loop started
    from [init_window]. *)
Fixpoint calculate_loop (fuel : nat) (w : window) (inp : string) : option outcome :=
  match fuel with
  | O => None
  | S fuel =>
      let calculate := calculate_loop fuel init_window in
      let '(status, w, inp) := parse_expr w inp in
      if status =? ">" then calculate_loop fuel (compute w) inp
      else if (status =? "n") || (status =? "c") then
        Some (get (operands (compute w)) 0, status, inp)
      else if status =? "o" then
        let nested :=
          if contains_nest_op (operators w) then
            let w := set_operator w (window_at w) "*" in
            if (window_at w <? 2)%nat then
              match calculate inp with
              | None => None
              | Some (v, status, inp) =>
                  Some (set_operand w (window_at w + 1) v, status, inp)
              end
            else
              let w := compute w in
              match calculate inp with
              | None => None
              | Some (v, status, inp) =>
                  Some (set_operand w (window_at w) v, status, inp)
              end
          else
            match calculate inp with
            | None => None
            | Some (v, status, inp) =>
                Some (set_operand w (window_at w) v, status, inp)
            end in
        match nested with
        | None => None
        | Some (w, status, inp) =>
            let w := compute w in
            if status =? newline then Some (get (operands w) 0, status, inp)
            else if status =? "s" then Some (get (operands w) 0, status, inp)
            else calculate_loop fuel w inp
        end
      else if status =? "s" then Some (get (operands w) 0, status, inp)
      else calculate_loop fuel w inp
  end.

(** [calculate(&status)] on the input [inp].  The fuel is enough for every
    input (see [calculate_total]): a pass of the loop that does not end it
    reads at least one character. *)
Definition calculate (inp : string) : option outcome :=
  calculate_loop (S (String.length inp)) init_window inp.

End Evaluator.

(** The names the specification gives to the status codes. *)
Definition COMPUTE : ascii := ">".
Definition OPEN : ascii := "o".
Definition CLOSE : ascii := "c".
Definition END : ascii := "n".
Definition SYNTAX_ERROR : ascii := "s".

(** ** A stand-in for [pow]

    The theorems below hold for every [pow].  To run the evaluator on closed
    inputs the parameter is instantiated with this function, which is [pow]
    of the C library wherever the exponent is a small integer and the power is
    a double (repeated multiplication is then exact). *)
Module PowModel.

Fixpoint pow_steps (fuel : nat) (x y : double) : double :=
  match fuel with
  | O => nan
  | S fuel =>
      if (y =? 0)%float then 1%float
      else if (y <? 1)%float then nan
      else (x * pow_steps fuel x (y - 1))%float
  end.

Definition pow (x y : double) : double :=
  if (y <? 0)%float then (1 / pow_steps 512 x (- y))%float
  else pow_steps 512 x y.

End PowModel.

(** The evaluator run with the stand-in. *)
Definition run (inp : string) : option outcome := calculate PowModel.pow inp.

(** ** Vocabulary of the statements *)

Section Vocabulary.

Variable pow : double -> double -> double.

(** The characters that keep the loop of [parse_operand] going. *)
Definition is_operand_char (c : ascii) : bool := is_digit c || (c =? ".").

(** [lexes_as l v]: the lexer reads the non-empty text [l] as the number
    [v].  Whatever character [t] outside an operand follows [l],
    [parse_operand], entered with the first character of [l], leaves [v] in
    [*operand], returns [t], and has read [l] and [t] and nothing more. *)
Definition lexes_as (l : string) (v : double) : Prop :=
  exists c0 l', l = String c0 l' /\
    forall t rest, is_operand_char t = false ->
      parse_operand pow c0 (l' ++ String t rest) = (t, v, rest).

(** The evaluator with a ghost log: the same loop as [calculate_loop], which
    also returns, in the order of the calls, the window each call of
    [compute] left.  [calculate_loop_log_erase] shows that dropping the log
    gives [calculate_loop] back. *)
Fixpoint calculate_loop_log (fuel : nat) (w : window) (inp : string)
    : option (outcome * list window) :=
  match fuel with
  | O => None
  | S fuel =>
      let calculate := calculate_loop_log fuel init_window in
      let '(status, w, inp) := parse_expr pow w inp in
      if status =? ">" then
        let w := compute pow w in
        match calculate_loop_log fuel w inp with
        | None => None
        | Some (r, log) => Some (r, w :: log)
        end
      else if (status =? "n") || (status =? "c") then
        let w := compute pow w in
        Some ((get (operands w) 0, status, inp), [w])
      else if status =? "o" then
        let nested :=
          if contains_nest_op (operators w) then
            let w := set_operator w (window_at w) "*" in
            if (window_at w <? 2)%nat then
              match calculate inp with
              | None => None
              | Some ((v, status, inp), log) =>
                  Some (set_operand w (window_at w + 1) v, status, inp, log)
              end
            else
              let w := compute pow w in
              match calculate inp with
              | None => None
              | Some ((v, status, inp), log) =>
                  Some (set_operand w (window_at w) v, status, inp, w :: log)
              end
          else
            match calculate inp with
            | None => None
            | Some ((v, status, inp), log) =>
                Some (set_operand w (window_at w) v, status, inp, log)
            end in
        match nested with
        | None => None
        | Some (w, status, inp, log) =>
            let w := compute pow w in
            if status =? newline then
              Some ((get (operands w) 0, status, inp), (log ++ [w])%list)
            else if status =? "s" then
              Some ((get (operands w) 0, status, inp), (log ++ [w])%list)
            else
              match calculate_loop_log fuel w inp with
              | None => None
              | Some (r, log') => Some (r, (log ++ w :: log')%list)
              end
        end
      else if status =? "s" then Some ((get (operands w) 0, status, inp), [])
      else
        match calculate_loop_log fuel w inp with
        | None => None
        | Some (r, log) => Some (r, log)
        end
  end.

Definition calculate_log (inp : string) : option (outcome * list window) :=
  calculate_loop_log (S (String.length inp)) init_window inp.

(** The loop of [calculate], started at window [w] on input [inp], returns
    [r]: some number of passes is enough for it. *)
Definition evaluates (w : window) (inp : string) (r : outcome) : Prop :=
  exists fuel, calculate_loop pow fuel w inp = Some r.

End Vocabulary.

(** The state [shift_window] promises: the trailing slot holds its defaults
    and the cursor stands at 1 or 2. *)
Definition collapsed (w : window) : Prop :=
  get (operands w) 2 = 0%float /\ get (operators w) 2 = "+"
  /\ (window_at w = 1 \/ window_at w = 2).

(** Every operator slot holds an arithmetic operator. *)
Definition ops_arith (w : window) : Prop :=
  is_arith_op (get (operators w) 0) = true
  /\ is_arith_op (get (operators w) 1) = true
  /\ is_arith_op (get (operators w) 2) = true.

(** What [parse_expr] leaves in operator slot [i]: an arithmetic operator,
    or the marker [(] in the slot under the cursor when it returns ['o']. *)
Definition slot_ok (status : ascii) (w : window) (i : nat) : Prop :=
  is_arith_op (get (operators w) i) = true
  \/ (status = "o" /\ i = window_at w /\ get (operators w) i = "(").

(** What a call of [parse_expr] on the input [inp] guarantees of its result:
    it reads at least one character unless none is left, in which case it
    reports a syntax error; its status is one of the five codes; the cursor
    stays within the window unless the status is ['>']. *)
Definition lexed (inp : string) (res : ascii * window * string) : Prop :=
  let '(status, w, inp') := res in
  String.length inp' <= String.length inp
  /\ (inp <> EmptyString -> String.length inp' < String.length inp)
  /\ (inp = EmptyString -> status = "s")
  /\ (status = ">" \/ status = "o" \/ status = "c" \/ status = "n" \/ status = "s")
  /\ (status <> ">" -> window_at w <= 2)
  /\ slot_ok status w 0 /\ slot_ok status w 1 /\ slot_ok status w 2.

(** The characters [parse_expr] discards, and the texts made of them. *)
Definition is_blank (c : ascii) : bool := (c =? " ") || (c =? tab).

Fixpoint blanks (s : string) : bool :=
  match s with
  | EmptyString => true
  | String c s => is_blank c && blanks s
  end.

(** The characters the [switch] of [parse_expr] has a case for. *)
Definition is_dispatched (c : ascii) : bool :=
  is_arith_op c || (c =? "(") || (c =? "o") || (c =? ")") || (c =? newline).

(** [n] copies of the character [c]. *)
Fixpoint repeat_char (n : nat) (c : ascii) : string :=
  match n with
  | O => EmptyString
  | S n => String c (repeat_char n c)
  end.

(** ** Operand literals

    The grammar of the specification: an optional sign, then either digits
    with an optional point and further digits, or a point and at least one
    digit.  A literal is kept as its parts, and its value is what the
    specification says of it: the digits before the point accumulated as
    [value * 10 + digit], then each digit after the point added after
    division by the next power of ten, and the sign applied last. *)

Inductive sign_mark : Type := NoSign | PlusSign | MinusSign.

Record literal : Type := Literal {
  lit_sign : sign_mark;
  lit_int : list ascii;
  lit_frac : option (list ascii)
}.

Definition sign_text (s : sign_mark) : string :=
  match s with
  | NoSign => EmptyString
  | PlusSign => "+"
  | MinusSign => "-"
  end.

Definition sign_value (s : sign_mark) : double :=
  match s with
  | MinusSign => (-1)%float
  | _ => 1%float
  end.

(** The text of the fractional part: nothing, or a point and digits. *)
Definition frac_text (fr : option (list ascii)) : string :=
  match fr with
  | None => EmptyString
  | Some fs => String "." (string_of_list_ascii fs)
  end.

Definition frac_digits (fr : option (list ascii)) : list ascii :=
  match fr with
  | None => []
  | Some fs => fs
  end.

Definition literal_text (l : literal) : string :=
  sign_text (lit_sign l) ++ string_of_list_ascii (lit_int l) ++ frac_text (lit_frac l).

Definition all_digits (ds : list ascii) : Prop :=
  Forall (fun c => is_digit c = true) ds.

(** A literal of the grammar whose fractional part the 8-bit counter of
    [parse_operand] can count. *)
Definition literal_ok (l : literal) : Prop :=
  all_digits (lit_int l)
  /\ all_digits (frac_digits (lit_frac l))
  /\ (lit_int l <> [] \/ frac_digits (lit_frac l) <> [])
  /\ (List.length (frac_digits (lit_frac l)) <= 127)%nat.

Definition int_acc (acc : double) (ds : list ascii) : double :=
  fold_left (fun a d => (a * 10 + double_of_int (digit_value d))%float) ds acc.

Section Denotation.

Variable pow : double -> double -> double.

(** [k] digits after the point have been added already. *)
Fixpoint frac_acc (k : Z) (acc : double) (fs : list ascii) : double :=
  match fs with
  | [] => acc
  | d :: fs =>
      frac_acc (k + 1)
        (acc + double_of_int (digit_value d) / pow 10 (double_of_int (k + 1)))%float fs
  end.

Definition literal_value (l : literal) : double :=
  (frac_acc 0 (int_acc 0 (lit_int l)) (frac_digits (lit_frac l))
   * sign_value (lit_sign l))%float.

End Denotation.

(** ** Reference values of expressions

    What the expressions of the statements denote, written without the
    window: the operation of an operator character, the precedence classes,
    and the value of a chain of operands read from left to right. *)

Section Reference.

Variable pow : double -> double -> double.

(** The operation an arithmetic operator stands for. *)
Definition binary (op : ascii) (a b : double) : double :=
  if op =? "+" then (a + b)%float
  else if op =? "-" then (a - b)%float
  else if op =? "*" then (a * b)%float
  else if op =? "/" then (a / b)%float
  else pow a b.

Definition is_additive (op : ascii) : bool := (op =? "+") || (op =? "-").

Definition is_multiplicative (op : ascii) : bool := (op =? "*") || (op =? "/").

(** The three precedence classes: power, then product and quotient, then
    sum and difference. *)
Definition precedence (op : ascii) : nat :=
  if op =? "^" then 3 else if is_multiplicative op then 2 else 1.

(** In [a p0 b p1 c], the second operator is applied first when it binds
    tighter than the first, and when both are powers. *)
Definition right_first (p0 p1 : ascii) : bool :=
  (precedence p0 <? precedence p1)%nat || ((p0 =? "^") && (p1 =? "^")).

Definition value3 (p0 p1 : ascii) (a b c : double) : double :=
  if right_first p0 p1 then binary p0 a (binary p1 b c)
  else binary p1 (binary p0 a b) c.

(** A further term of a chain: an operator, the text of the operand after
    it, and the number the text is read as. *)
Definition term : Type := ascii * string * double.

Definition term_op (t : term) : ascii := fst (fst t).

Definition term_lexes (t : term) : Prop := lexes_as pow (snd (fst t)) (snd t).

(** The text of the terms, followed by [rest]. *)
Fixpoint chain_text (items : list term) (rest : string) : string :=
  match items with
  | [] => rest
  | (op, l, _) :: items => String op (l ++ chain_text items rest)
  end.

(** The terms applied one after the other to [acc]. *)
Fixpoint chain_value (acc : double) (items : list term) : double :=
  match items with
  | [] => acc
  | (op, _, v) :: items => chain_value (binary op acc v) items
  end.

(** All operators of the chain are sums and differences, or all are
    products and quotients. *)
Definition one_class (items : list term) : Prop :=
  Forall (fun t => is_additive (term_op t) = true) items
  \/ Forall (fun t => is_multiplicative (term_op t) = true) items.

(** [cls] is one of the two classes whose chains the window folds from
    left to right. *)
Definition chain_class (cls : ascii -> bool) : Prop :=
  cls = is_additive \/ cls = is_multiplicative.

(** Every term of the chain has an operator of the class [cls] and an
    operand the lexer reads. *)
Definition chain_ok (cls : ascii -> bool) (items : list term) : Prop :=
  Forall (fun t => cls (term_op t) = true /\ term_lexes t) items.

End Reference.

(** ** Where an evaluation stops

    [stops_after inp c rest]: [rest] is what follows an occurrence of the
    character [c] in [inp]; [tail_of inp rest]: [rest] is what follows some
    prefix of [inp]. *)
Definition stops_after (inp : string) (c : ascii) (rest : string) : Prop :=
  exists pre, inp = pre ++ String c rest.

Definition tail_of (inp rest : string) : Prop := exists pre, inp = pre ++ rest.

(** The three ways [calculate] ends: at a line end it has just read, at a
    closing parenthesis it has just read, or in a syntax error somewhere in
    the input. *)
Definition outcome_shape (inp : string) (status : ascii) (rest : string) : Prop :=
  (status = END /\ stops_after inp newline rest)
  \/ (status = CLOSE /\ stops_after inp ")" rest)
  \/ (status = SYNTAX_ERROR /\ tail_of inp rest).

(** The status a terminator gives: [CLOSE] for a closing parenthesis, [END]
    for the line end. *)
Definition terminator_status (t : ascii) : ascii :=
  if t =? ")" then CLOSE else END.

Definition is_terminator (t : ascii) : bool := (t =? ")") || (t =? newline).

(** [reads c inp c' rest]: a scan that holds the character [c], with [inp]
    still unread, and ends holding [c'] with [rest] unread, has consumed a
    prefix of [inp]; and when [c'] is a terminator it is a character of the
    input, [c] itself or one of [inp], with [rest] what follows it. *)
Definition reads (c : ascii) (inp : string) (c' : ascii) (rest : string) : Prop :=
  tail_of inp rest
  /\ (is_terminator c' = true ->
      (c' = c /\ rest = inp) \/ stops_after inp c' rest).

(** ** Lines without groups

    A character that neither ends the line nor opens a group (the letter
    [o] opens one in the operator position), and the texts made of such
    characters. *)
Definition plain_char (c : ascii) : bool :=
  negb (c =? newline) && negb (c =? "(") && negb (c =? "o").

Fixpoint plain (s : string) : bool :=
  match s with
  | EmptyString => true
  | String c s => plain_char c && plain s
  end.

(** Two ways a scan of the plain text [pre] ends, whatever terminator [t]
    and input [rest] follow the text.  [scan_inside run c' v pre1]: it ends
    inside the text, holding the plain character [c'], with the text [pre1]
    and what follows unread.  [scan_through run v]: it ends holding the
    terminator, with what follows unread. *)
Definition scan_inside {A : Type} (run : string -> ascii * A * string)
    (pre : string) (c' : ascii) (v : A) (pre1 : string) : Prop :=
  plain_char c' = true /\ plain pre1 = true
  /\ forall t rest, is_terminator t = true ->
       run (pre ++ String t rest) = (c', v, pre1 ++ String t rest).

Definition scan_through {A : Type} (run : string -> ascii * A * string)
    (pre : string) (v : A) : Prop :=
  forall t rest, is_terminator t = true ->
    run (pre ++ String t rest) = (t, v, rest).

(** The same for a pass of [parse_expr], whose status for a terminator is
    [terminator_status]. *)
Definition pass_inside (run : string -> ascii * window * string)
    (pre : string) (st : ascii) (w : window) (pre1 : string) : Prop :=
  (st = ">" \/ st = "c" \/ st = "s") /\ plain pre1 = true
  /\ forall t rest, is_terminator t = true ->
       run (pre ++ String t rest) = (st, w, pre1 ++ String t rest).

Definition pass_through (run : string -> ascii * window * string)
    (pre : string) (w : window) : Prop :=
  forall t rest, is_terminator t = true ->
    run (pre ++ String t rest) = (terminator_status t, w, rest).

(** And for an evaluation, which may also run out of fuel. *)
Definition eval_inside (run : string -> option outcome)
    (pre : string) (v : double) (st : ascii) (pre1 : string) : Prop :=
  (st = "c" \/ st = "s") /\ plain pre1 = true
  /\ forall t rest, is_terminator t = true ->
       run (pre ++ String t rest) = Some (v, st, pre1 ++ String t rest).

Definition eval_through (run : string -> option outcome)
    (pre : string) (v : double) : Prop :=
  forall t rest, is_terminator t = true ->
    run (pre ++ String t rest) = Some (v, terminator_status t, rest).

(** ** The array stores of [calculate]

    [calculate] writes its two arrays through [window_at] in three places:
    [operators[window_at] = '*'], [operands[window_at+1] = ...] and
    [operands[window_at] = ...].  This is the loop of [calculate] with a
    ghost list that records, in the order of the stores, the index of each
    of them, those of the nested calls included;
    [calculate_loop_stores_erase] shows that dropping the list gives
    [calculate_loop] back. *)

Section Stores.

Variable pow : double -> double -> double.

Fixpoint calculate_loop_stores (fuel : nat) (w : window) (inp : string)
    : option (outcome * list nat) :=
  match fuel with
  | O => None
  | S fuel =>
      let calculate := calculate_loop_stores fuel init_window in
      let '(status, w, inp) := parse_expr pow w inp in
      if status =? ">" then calculate_loop_stores fuel (compute pow w) inp
      else if (status =? "n") || (status =? "c") then
        Some ((get (operands (compute pow w)) 0, status, inp), [])
      else if status =? "o" then
        let nested :=
          if contains_nest_op (operators w) then
            let i := window_at w in
            let w := set_operator w i "*" in
            if (window_at w <? 2)%nat then
              match calculate inp with
              | None => None
              | Some ((v, status, inp), log) =>
                  Some (set_operand w (window_at w + 1) v, status, inp,
                        (i :: log ++ [window_at w + 1])%list)
              end
            else
              let w := compute pow w in
              match calculate inp with
              | None => None
              | Some ((v, status, inp), log) =>
                  Some (set_operand w (window_at w) v, status, inp,
                        (i :: log ++ [window_at w])%list)
              end
          else
            match calculate inp with
            | None => None
            | Some ((v, status, inp), log) =>
                Some (set_operand w (window_at w) v, status, inp,
                      (log ++ [window_at w])%list)
            end in
        match nested with
        | None => None
        | Some (w, status, inp, log) =>
            let w := compute pow w in
            if status =? newline then Some ((get (operands w) 0, status, inp), log)
            else if status =? "s" then Some ((get (operands w) 0, status, inp), log)
            else
              match calculate_loop_stores fuel w inp with
              | None => None
              | Some (r, log') => Some (r, (log ++ log')%list)
              end
        end
      else if status =? "s" then Some ((get (operands w) 0, status, inp), [])
      else calculate_loop_stores fuel w inp
  end.

Definition calculate_stores (inp : string) : option (outcome * list nat) :=
  calculate_loop_stores (S (String.length inp)) init_window inp.

End Stores.

(** ** The frame of a pass

    [below n w w']: the slots under the index [n] hold the same operands and
    operators in [w'] as in [w]. *)
Definition below (n : nat) (w w' : window) : Prop :=
  forall i, i < n ->
    get (operands w') i = get (operands w) i
    /\ get (operators w') i = get (operators w) i.

(** * Lemmas *)

(** ** Strings *)

Lemma length_append (s1 s2 : string) :
  String.length (s1 ++ s2) = String.length s1 + String.length s2.
Proof. induction s1 as [| c s1 IH]; cbn; [reflexivity | now rewrite IH]. Qed.

Lemma append_assoc (s1 s2 s3 : string) : (s1 ++ s2) ++ s3 = s1 ++ (s2 ++ s3).
Proof. induction s1 as [| c s1 IH]; cbn; [reflexivity | now rewrite IH]. Qed.

(** ** The lexer after an operand *)

Section Lexer_facts.

Variable pow : double -> double -> double.

Lemma is_arith_op_cases (c : ascii) :
  is_arith_op c = true ->
  c = "+" \/ c = "-" \/ c = "*" \/ c = "/" \/ c = "^".
Proof.
  unfold is_arith_op. rewrite !orb_true_iff, !Ascii.eqb_eq. tauto.
Qed.

Lemma skip_blanks_other (c : ascii) (inp : string) :
  (c =? " ") || (c =? tab) = false -> skip_blanks inp c = (c, inp).
Proof. intros H. destruct inp; simpl; rewrite H; reflexivity. Qed.

Lemma operand_loop_stop (inp : string) (c : ascii) (h : bool) (e : Z)
    (operand sign : double) :
  is_operand_char c = false ->
  operand_loop pow inp c h e operand sign = (c, (operand * sign)%float, inp).
Proof.
  unfold is_operand_char. intros H. destruct inp; cbn [operand_loop]; rewrite H; reflexivity.
Qed.

(** One pass of the loop of [parse_expr] over a literal and the operator
    after it. *)
Lemma parse_expr_loop_operator (room : nat) (w : window) (l : string)
    (v : double) (op : ascii) (rest : string) :
  lexes_as pow l v -> is_arith_op op = true ->
  parse_expr_loop pow (S room) w (l ++ String op rest)
  = parse_expr_loop pow room
      (set_window_at (set_operator (set_operand w (window_at w) v) (window_at w) op)
                     (window_at w + 1)) rest.
Proof.
  intros (c0 & l' & -> & Hl) Hop.
  assert (Hnot : is_operand_char op = false)
    by (destruct (is_arith_op_cases _ Hop) as [-> | [-> | [-> | [-> | ->]]]]; reflexivity).
  cbn [parse_expr_loop append getchar]. rewrite (Hl _ _ Hnot).
  destruct (is_arith_op_cases _ Hop) as [-> | [-> | [-> | [-> | ->]]]];
    cbn [Ascii.eqb Bool.eqb]; rewrite skip_blanks_other by reflexivity;
    reflexivity.
Qed.

(** The pass that meets the end of the line, a closing or an opening
    parenthesis after the literal. *)
Lemma parse_expr_loop_end (room : nat) (w : window) (l : string) (v : double)
    (rest : string) :
  lexes_as pow l v ->
  parse_expr_loop pow (S room) w (l ++ String newline rest)
  = ("n", set_operand w (window_at w) v, rest).
Proof.
  intros (c0 & l' & -> & Hl).
  cbn [parse_expr_loop append getchar]. rewrite (Hl newline rest eq_refl).
  cbn [Ascii.eqb Bool.eqb newline]. rewrite skip_blanks_other by reflexivity.
  reflexivity.
Qed.

Lemma parse_expr_loop_close (room : nat) (w : window) (l : string) (v : double)
    (rest : string) :
  lexes_as pow l v ->
  parse_expr_loop pow (S room) w (l ++ String ")" rest)
  = ("c", set_operand w (window_at w) v, rest).
Proof.
  intros (c0 & l' & -> & Hl).
  cbn [parse_expr_loop append getchar]. rewrite (Hl ")" rest eq_refl).
  cbn [Ascii.eqb Bool.eqb]. rewrite skip_blanks_other by reflexivity.
  reflexivity.
Qed.

Lemma parse_expr_loop_open (room : nat) (w : window) (l : string) (v : double)
    (rest : string) :
  lexes_as pow l v ->
  parse_expr_loop pow (S room) w (l ++ String "(" rest)
  = ("o", set_operator (set_operand w (window_at w) v) (window_at w) "(", rest).
Proof.
  intros (c0 & l' & -> & Hl).
  cbn [parse_expr_loop append getchar]. rewrite (Hl "(" rest eq_refl).
  cbn [Ascii.eqb Bool.eqb]. rewrite skip_blanks_other by reflexivity.
  reflexivity.
Qed.

Lemma skip_blanks_run (bs : string) :
  forall (b c : ascii) (rest : string),
    is_blank b = true -> blanks bs = true -> is_blank c = false ->
    skip_blanks (bs ++ String c rest) b = (c, rest).
Proof.
  unfold is_blank.
  induction bs as [| b' bs IH]; intros b c rest Hb Hbs Hc;
    cbn [append skip_blanks]; rewrite Hb.
  - now apply skip_blanks_other.
  - cbn [blanks] in Hbs. apply andb_true_iff in Hbs as (Hb' & Hbs). now apply IH.
Qed.

Lemma blank_cases (b : ascii) : is_blank b = true -> b = " " \/ b = tab.
Proof. unfold is_blank. rewrite orb_true_iff, !Ascii.eqb_eq. tauto. Qed.

(** Blanks between an operand and the character after it are skipped: the
    pass reads the same operand and dispatches on the same character. *)
Lemma parse_expr_loop_blanks (room : nat) (w : window) (l : string) (v : double)
    (bs : string) (t : ascii) (rest : string) :
  lexes_as pow l v -> blanks bs = true ->
  is_blank t = false -> is_operand_char t = false ->
  parse_expr_loop pow (S room) w (l ++ bs ++ String t rest)
  = parse_expr_loop pow (S room) w (l ++ String t rest).
Proof.
  intros (c0 & l' & -> & Hl) Hbs Ht Hop.
  destruct bs as [| b bs]; [reflexivity |].
  cbn [blanks] in Hbs. apply andb_true_iff in Hbs as (Hb & Hbs).
  cbn [parse_expr_loop append getchar].
  assert (Hbop : is_operand_char b = false)
    by (destruct (blank_cases b Hb) as [-> | ->]; reflexivity).
  rewrite (Hl b _ Hbop), (Hl t _ Hop).
  replace (b =? "s") with false
    by (destruct (blank_cases b Hb) as [-> | ->]; reflexivity).
  rewrite (skip_blanks_run bs b t rest Hb Hbs Ht).
  destruct (t =? "s") eqn:Es.
  - apply Ascii.eqb_eq in Es. subst t. reflexivity.
  - now rewrite (skip_blanks_other t rest Ht).
Qed.

(** The three ways to the syntax-error code.  An operand that starts with
    [*] or [/]: *)
Lemma parse_expr_loop_operator_first (room : nat) (w : window) (c : ascii)
    (inp : string) :
  c = "*" \/ c = "/" ->
  parse_expr_loop pow (S room) w (String c inp)
  = ("s", set_operand w (window_at w) 0%float, inp).
Proof. intros [-> | ->]; reflexivity. Qed.

(** a point in an operand that has one already: *)
Lemma operand_loop_second_point (inp : string) (e : Z) (acc sign : double) :
  operand_loop pow inp "." true e acc sign = ("s", acc, inp).
Proof. destruct inp; reflexivity. Qed.

(** and, after an operand and blanks, a character the [switch] has no case
    for. *)
Lemma parse_expr_loop_unknown (room : nat) (w : window) (l : string) (v : double)
    (t : ascii) (rest : string) :
  lexes_as pow l v ->
  is_operand_char t = false -> is_blank t = false -> is_dispatched t = false ->
  parse_expr_loop pow (S room) w (l ++ String t rest)
  = ("s", set_operand w (window_at w) v, rest).
Proof.
  intros (c0 & l' & -> & Hl) Hop Hb Hd.
  cbn [parse_expr_loop append getchar]. rewrite (Hl t rest Hop).
  destruct (t =? "s"); [reflexivity |].
  rewrite (skip_blanks_other t rest Hb).
  unfold is_dispatched in Hd.
  destruct (is_arith_op t), (t =? "("), (t =? "o"), (t =? ")"), (t =? newline);
    try discriminate Hd; reflexivity.
Qed.

End Lexer_facts.

(** ** The lexer on the literals of the grammar *)

Section Literals.

Variable pow : double -> double -> double.

Lemma char_of_int_small (n : Z) : (-128 <= n <= 127)%Z -> char_of_int n = n.
Proof. intros H. unfold char_of_int. rewrite Z.mod_small; lia. Qed.

Lemma is_digit_cases (c : ascii) :
  is_digit c = true ->
  c = "0" \/ c = "1" \/ c = "2" \/ c = "3" \/ c = "4"
  \/ c = "5" \/ c = "6" \/ c = "7" \/ c = "8" \/ c = "9".
Proof.
  destruct c as [[] [] [] [] [] [] [] []]; cbv; intros H; try discriminate H; tauto.
Qed.

Lemma first_digit (c : ascii) :
  is_digit c = true ->
  (0 * 10 + double_of_int (digit_value c))%float = double_of_int (digit_value c).
Proof.
  intros H.
  destruct (is_digit_cases c H) as [-> | [-> | [-> | [-> | [-> | [-> | [-> | [-> | [-> | ->]]]]]]]]];
    reflexivity.
Qed.

Lemma digit_not_special (c : ascii) :
  is_digit c = true ->
  (c =? "-") = false /\ (c =? "+") = false /\ (c =? ".") = false.
Proof.
  intros H.
  destruct (is_digit_cases c H) as [-> | [-> | [-> | [-> | [-> | [-> | [-> | [-> | [-> | ->]]]]]]]]];
    repeat split; reflexivity.
Qed.

(** The loop over the digits of the integer part. *)
Lemma operand_loop_int (ds : list ascii) :
  forall (c : ascii) (e : Z) (acc sign : double) (t : ascii) (rest : string),
    all_digits (c :: ds) ->
    operand_loop pow (string_of_list_ascii ds ++ String t rest) c false e acc sign
    = operand_loop pow rest t false e (int_acc acc (c :: ds)) sign.
Proof.
  induction ds as [| d ds IH]; intros c e acc sign t rest Hd;
    inversion Hd as [| ? ? Hc Hds]; subst;
    cbn [string_of_list_ascii append operand_loop]; unfold operand_step;
    rewrite Hc; cbn [orb].
  - reflexivity.
  - now rewrite IH.
Qed.

(** The loop over the digits after the point. *)
Lemma operand_loop_frac (fs : list ascii) :
  forall (c : ascii) (e : Z) (acc sign : double) (t : ascii) (rest : string),
    all_digits (c :: fs) ->
    (0 <= e)%Z -> (e + Z.of_nat (List.length (c :: fs)) <= 127)%Z ->
    operand_loop pow (string_of_list_ascii fs ++ String t rest) c true e acc sign
    = operand_loop pow rest t true (e + Z.of_nat (List.length (c :: fs)))
        (frac_acc pow e acc (c :: fs)) sign.
Proof.
  induction fs as [| d fs IH]; intros c e acc sign t rest Hd He Hlen;
    inversion Hd as [| ? ? Hc Hds]; subst;
    cbn [string_of_list_ascii append operand_loop]; unfold operand_step;
    rewrite Hc; cbn [orb];
    rewrite char_of_int_small by (cbn [List.length] in Hlen; lia).
  - reflexivity.
  - rewrite IH; [| assumption | lia | cbn [List.length] in *; lia].
    cbn [frac_acc List.length].
    replace (e + 1 + Z.of_nat (S (List.length fs)))%Z
      with (e + Z.of_nat (S (S (List.length fs))))%Z by lia.
    reflexivity.
Qed.

(** The pass over the decimal point. *)
Lemma operand_loop_point (inp : string) (c : ascii) (e : Z) (acc sign : double) :
  operand_loop pow (String c inp) "." false e acc sign
  = operand_loop pow inp c true e acc sign.
Proof. reflexivity. Qed.

(** From the character after the point to the end of the literal. *)
Lemma operand_loop_frac_tail (fs : list ascii) (acc sign : double) (t : ascii)
    (rest : string) :
  all_digits fs -> (List.length fs <= 127)%nat -> is_operand_char t = false ->
  (let (c, inp) := getchar (string_of_list_ascii fs ++ String t rest) in
   operand_loop pow inp c true 0 acc sign)
  = (t, (frac_acc pow 0 acc fs * sign)%float, rest).
Proof.
  intros Hd Hlen Ht. destruct fs as [| d fs]; cbn [string_of_list_ascii append getchar].
  - now rewrite operand_loop_stop.
  - rewrite operand_loop_frac; [| assumption | lia | cbn [List.length] in *; lia].
    now rewrite operand_loop_stop.
Qed.

(** From the fractional part on, the point not read yet. *)
Lemma operand_loop_from_point (fr : option (list ascii)) (acc sign : double)
    (t : ascii) (rest : string) :
  all_digits (frac_digits fr) -> (List.length (frac_digits fr) <= 127)%nat ->
  is_operand_char t = false ->
  (let (c, inp) := getchar (frac_text fr ++ String t rest) in
   operand_loop pow inp c false 0 acc sign)
  = (t, (frac_acc pow 0 acc (frac_digits fr) * sign)%float, rest).
Proof.
  intros Hd Hlen Ht. destruct fr as [fs |]; cbn [frac_text frac_digits append getchar] in *.
  - rewrite <- (operand_loop_frac_tail fs acc sign t rest Hd Hlen Ht).
    destruct fs; reflexivity.
  - now rewrite operand_loop_stop.
Qed.

(** From any place in the integer part to the end of the literal. *)
Lemma operand_loop_int_tail (ds : list ascii) (fr : option (list ascii))
    (acc sign : double) (t : ascii) (rest : string) :
  all_digits ds -> all_digits (frac_digits fr) ->
  (List.length (frac_digits fr) <= 127)%nat -> is_operand_char t = false ->
  (let (c, inp) := getchar (string_of_list_ascii ds ++ frac_text fr ++ String t rest) in
   operand_loop pow inp c false 0 acc sign)
  = (t, (frac_acc pow 0 (int_acc acc ds) (frac_digits fr) * sign)%float, rest).
Proof.
  intros Hds Hd Hlen Ht. destruct ds as [| d ds].
  - cbn [string_of_list_ascii append int_acc fold_left].
    now apply operand_loop_from_point.
  - cbn [string_of_list_ascii append getchar].
    pose proof (operand_loop_from_point fr (int_acc acc (d :: ds)) sign t rest Hd Hlen Ht)
      as Hp.
    destruct fr as [fs |]; cbn [frac_text frac_digits append getchar] in *.
    + rewrite operand_loop_int by assumption. exact Hp.
    + rewrite operand_loop_int by assumption. exact Hp.
Qed.

(** The lexer reads every literal of the grammar, with at most 127 digits
    after the point, as the number its digits denote. *)
Theorem literal_lexes (l : literal) :
  literal_ok l -> lexes_as pow (literal_text l) (literal_value pow l).
Proof.
  destruct l as [s ds fr]. unfold literal_ok, literal_text, literal_value.
  cbn [lit_sign lit_int lit_frac]. intros (Hds & Hfd & Hne & Hlen).
  destruct s; cbn [sign_text append sign_value].
  - (* no sign: the first character is a digit or the point *)
    destruct ds as [| d ds].
    + destruct fr as [fs |]; [| cbn in Hne; tauto].
      cbn [string_of_list_ascii append frac_text frac_digits int_acc fold_left] in *.
      eexists _, _; split; [reflexivity |]. intros t rest Ht.
      unfold parse_operand. cbn [Ascii.eqb Bool.eqb is_digit Ascii.leb Ascii.compare
        N_of_ascii N_of_digits N.compare N.add N.mul Pos.compare Pos.compare_cont
        Pos.add Pos.mul Pos.succ andb orb].
      now apply operand_loop_frac_tail.
    + inversion Hds as [| ? ? Hd Hds']; subst.
      cbn [string_of_list_ascii append].
      eexists _, _; split; [reflexivity |]. intros t rest Ht.
      unfold parse_operand.
      destruct (digit_not_special d Hd) as (E1 & E2 & _). rewrite E1, E2, Hd.
      rewrite append_assoc.
      rewrite (operand_loop_int_tail ds fr _ _ t rest Hds' Hfd Hlen Ht).
      cbn [int_acc fold_left]. now rewrite first_digit.
  - eexists _, _; split; [reflexivity |]. intros t rest Ht.
    unfold parse_operand. cbn [Ascii.eqb Bool.eqb]. rewrite append_assoc.
    now rewrite (operand_loop_int_tail ds fr _ _ t rest Hds Hfd Hlen Ht).
  - eexists _, _; split; [reflexivity |]. intros t rest Ht.
    unfold parse_operand. cbn [Ascii.eqb Bool.eqb]. rewrite append_assoc.
    now rewrite (operand_loop_int_tail ds fr _ _ t rest Hds Hfd Hlen Ht).
Qed.

(** *** The digit counter past its range *)

Lemma char_of_int_range (n : Z) : (-128 <= char_of_int n <= 127)%Z.
Proof.
  unfold char_of_int.
  pose proof (Z.mod_pos_bound (n + 128) 256 ltac:(lia)). lia.
Qed.

Lemma char_of_int_add (a b : Z) : char_of_int (char_of_int a + b) = char_of_int (a + b).
Proof.
  unfold char_of_int. f_equal.
  replace ((a + 128) mod 256 - 128 + b + 128)%Z with ((a + 128) mod 256 + b)%Z by lia.
  rewrite Zplus_mod_idemp_l. f_equal. lia.
Qed.

(** The loop over a run of zeros after the point, however long: the value
    stays 0 and the counter goes round. *)
Lemma operand_loop_zeros (n : nat) :
  forall (e : Z) (sign : double) (t : ascii) (rest : string),
    (forall k : Z, (-128 <= k <= 127)%Z ->
       (0 / pow 10 (double_of_int k) = 0)%float) ->
    operand_loop pow (repeat_char n "0" ++ String t rest) "0" true e 0%float sign
    = operand_loop pow rest t true (char_of_int (e + Z.of_nat (S n))) 0%float sign.
Proof.
  induction n as [| n IH]; intros e sign t rest H;
    cbn [repeat_char append operand_loop];
    change (is_digit "0" || ("0" =? ".")) with true; cbv iota;
    unfold operand_step; change (is_digit "0") with true; cbv iota;
    change (double_of_int (digit_value "0")) with 0%float;
    rewrite (H _ (char_of_int_range (e + 1)));
    change (0 + 0)%float with 0%float.
  - reflexivity.
  - rewrite IH by exact H. rewrite char_of_int_add.
    f_equal. f_equal. lia.
Qed.

(** The lexer reads a one in the 256th place after the point as 1. *)
Lemma long_fraction_lexes :
  pow 10%float 0%float = 1%float ->
  (forall k : Z, (-128 <= k <= 127)%Z -> (0 / pow 10 (double_of_int k) = 0)%float) ->
  lexes_as pow ("." ++ repeat_char 255 "0" ++ "1") 1%float.
Proof.
  intros H0 H. exists ".", (repeat_char 255 "0" ++ "1"). split; [reflexivity |].
  intros t rest Ht. rewrite append_assoc.
  change (repeat_char 255 "0") with (String "0" (repeat_char 254 "0")).
  cbn [append]. unfold parse_operand.
  change ("." =? "-") with false. change ("." =? "+") with false.
  change (is_digit ".") with false. change ("." =? ".") with true. cbv iota.
  cbn [getchar].
  rewrite (operand_loop_zeros 254 0 1%float "1" (String t rest) H).
  change (char_of_int (0 + Z.of_nat 255)) with (-1)%Z.
  cbn [operand_loop].
  change (is_digit "1" || ("1" =? ".")) with true. cbv iota.
  unfold operand_step. change (is_digit "1") with true. cbv iota.
  change (char_of_int (-1 + 1)) with 0%Z.
  change (double_of_int 0) with 0%float.
  change (double_of_int (digit_value "1")) with 1%float.
  rewrite H0. rewrite operand_loop_stop by exact Ht.
  reflexivity.
Qed.

End Literals.

(** ** Adding zero to a double *)

Module FloatFacts.

(** The collapse at the end of an expression adds the empty slots, which
    hold 0.  Adding 0 changes no double but the negative zero, which
    becomes the positive one. *)
Lemma add_zero_cases (x : double) :
  (x + 0 = x)%float \/ (x = (-0)%float /\ (x + 0 = 0)%float).
Proof.
  destruct (Prim2SF x) as [s | s | | s m e] eqn:E.
  - assert (Hx : x = SF2Prim (S754_zero s))
      by (rewrite <- E; symmetry; apply SF2Prim_Prim2SF).
    destruct s; subst x; [right; split | left]; reflexivity.
  - left. apply Prim2SF_inj. rewrite add_spec, E. reflexivity.
  - left. apply Prim2SF_inj. rewrite add_spec, E. reflexivity.
  - left. apply Prim2SF_inj. rewrite add_spec, E. reflexivity.
Qed.

Lemma add_zero_same (x : double) : same_number (x + 0)%float x.
Proof.
  destruct (add_zero_cases x) as [H | [-> H]].
  - left. exact H.
  - right. reflexivity.
Qed.

Lemma add_zero_idem (x : double) : (x + 0 + 0 = x + 0)%float.
Proof.
  destruct (add_zero_cases x) as [H | [-> H]].
  - now rewrite !H.
  - reflexivity.
Qed.

End FloatFacts.

(** ** One pass of the evaluator *)

Section Evaluator_facts.

Variable pow : double -> double -> double.

Lemma calculate_loop_finish (fuel : nat) (w w1 : window) (inp inp1 : string)
    (status : ascii) :
  parse_expr pow w inp = (status, w1, inp1) ->
  status = "n" \/ status = "c" ->
  calculate_loop pow (S fuel) w inp
  = Some (get (operands (compute pow w1)) 0, status, inp1).
Proof.
  intros HP Hs. cbn [calculate_loop]. rewrite HP.
  destruct Hs as [-> | ->]; reflexivity.
Qed.

Lemma calculate_loop_error (fuel : nat) (w w1 : window) (inp inp1 : string) :
  parse_expr pow w inp = ("s", w1, inp1) ->
  calculate_loop pow (S fuel) w inp = Some (get (operands w1) 0, "s", inp1).
Proof. intros HP. cbn [calculate_loop]. rewrite HP. reflexivity. Qed.

Lemma calculate_loop_compute (fuel : nat) (w w1 : window) (inp inp1 : string) :
  parse_expr pow w inp = (">", w1, inp1) ->
  calculate_loop pow (S fuel) w inp = calculate_loop pow fuel (compute pow w1) inp1.
Proof. intros HP. cbn [calculate_loop]. rewrite HP. reflexivity. Qed.

(** More fuel does not change an outcome. *)
Lemma calculate_loop_more_fuel (fuel : nat) :
  forall (w : window) (inp : string) (r : outcome),
    calculate_loop pow fuel w inp = Some r ->
    forall fuel', fuel <= fuel' -> calculate_loop pow fuel' w inp = Some r.
Proof.
  induction fuel as [| fuel IH]; intros w inp r H fuel' Hle; [discriminate |].
  destruct fuel' as [| fuel']; [lia |].
  assert (Hle' : fuel <= fuel') by lia.
  cbn [calculate_loop] in H |- *.
  destruct (parse_expr pow w inp) as [[status w1] inp1].
  destruct (status =? ">"); [now apply IH with (fuel' := fuel') in H |].
  destruct ((status =? "n") || (status =? "c")); [exact H |].
  destruct (status =? "o").
  - destruct (contains_nest_op (operators w1)).
    + destruct (window_at (set_operator w1 (window_at w1) "*") <? 2)%nat.
      * destruct (calculate_loop pow fuel init_window inp1) as [[[v st] inp2] |] eqn:E;
          [| discriminate].
        rewrite (IH _ _ _ E fuel' Hle').
        destruct (st =? newline); [exact H |].
        destruct (st =? "s"); [exact H |].
        now apply IH with (fuel' := fuel') in H.
      * destruct (calculate_loop pow fuel init_window inp1) as [[[v st] inp2] |] eqn:E;
          [| discriminate].
        rewrite (IH _ _ _ E fuel' Hle').
        destruct (st =? newline); [exact H |].
        destruct (st =? "s"); [exact H |].
        now apply IH with (fuel' := fuel') in H.
    + destruct (calculate_loop pow fuel init_window inp1) as [[[v st] inp2] |] eqn:E;
        [| discriminate].
      rewrite (IH _ _ _ E fuel' Hle').
      destruct (st =? newline); [exact H |].
      destruct (st =? "s"); [exact H |].
      now apply IH with (fuel' := fuel') in H.
  - destruct (status =? "s"); [exact H |].
    now apply IH with (fuel' := fuel') in H.
Qed.

End Evaluator_facts.

(** ** Expressions of two and three operands *)

Section Short_expressions.

Variable pow : double -> double -> double.

(** The window [parse_expr] builds from [la op0 lb op1 lc] and a line end. *)
Lemma parse_expr_three (la lb lc : string) (a b c : double) (op0 op1 : ascii) :
  lexes_as pow la a -> lexes_as pow lb b -> lexes_as pow lc c ->
  is_arith_op op0 = true -> is_arith_op op1 = true ->
  parse_expr pow init_window
    (la ++ String op0 (lb ++ String op1 (lc ++ LF)))
  = ("n", Window (Array3 a b c) (Array3 op0 op1 "+") 2, EmptyString).
Proof.
  intros Ha Hb Hc H0 H1. unfold parse_expr, LF, str.
  cbn [init_window window_at Nat.sub].
  rewrite (parse_expr_loop_operator pow _ _ _ _ _ _ Ha H0).
  rewrite (parse_expr_loop_operator pow _ _ _ _ _ _ Hb H1).
  rewrite (parse_expr_loop_end pow _ _ _ _ _ Hc).
  reflexivity.
Qed.

Lemma calculate_three (la lb lc : string) (a b c : double) (op0 op1 : ascii) :
  lexes_as pow la a -> lexes_as pow lb b -> lexes_as pow lc c ->
  is_arith_op op0 = true -> is_arith_op op1 = true ->
  calculate pow (la ++ String op0 (lb ++ String op1 (lc ++ LF)))
  = Some (get (operands (compute pow
                 (Window (Array3 a b c) (Array3 op0 op1 "+") 2))) 0,
          END, EmptyString).
Proof.
  intros Ha Hb Hc H0 H1. unfold calculate.
  apply calculate_loop_finish.
  - now apply parse_expr_three.
  - now left.
Qed.

(** An expression of one operand: the two empty slots are added to it. *)
Lemma calculate_one (l : string) (v : double) :
  lexes_as pow l v ->
  calculate pow (l ++ LF) = Some ((v + 0 + 0)%float, END, EmptyString).
Proof.
  intros Hl. unfold calculate.
  rewrite (calculate_loop_finish pow _ init_window (set_operand init_window 0 v)
             _ EmptyString "n"); [reflexivity | | now left].
  unfold parse_expr, LF, str. cbn [init_window window_at Nat.sub].
  now rewrite (parse_expr_loop_end pow _ _ _ _ _ Hl).
Qed.

Lemma calculate_two (la lb : string) (a b : double) (op0 : ascii) :
  lexes_as pow la a -> lexes_as pow lb b -> is_arith_op op0 = true ->
  calculate pow (la ++ String op0 (lb ++ LF))
  = Some (get (operands (compute pow
                 (Window (Array3 a b 0%float) (Array3 op0 "+" "+") 1))) 0,
          END, EmptyString).
Proof.
  intros Ha Hb H0. unfold calculate. apply calculate_loop_finish; [| now left].
  unfold parse_expr, LF, str. cbn [init_window window_at Nat.sub].
  rewrite (parse_expr_loop_operator pow _ _ _ _ _ _ Ha H0).
  rewrite (parse_expr_loop_end pow _ _ _ _ _ Hb).
  reflexivity.
Qed.

(** Precedence between classes, on operators that no blank follows. *)
Lemma precedence_between_classes (la lb lc : string) (a b c : double) :
  lexes_as pow la a -> lexes_as pow lb b -> lexes_as pow lc c ->
  calculate pow (la ++ "+" ++ lb ++ "*" ++ lc ++ LF)
    = Some ((a + b * c)%float, END, EmptyString)
  /\ calculate pow (la ++ "*" ++ lb ++ "+" ++ lc ++ LF)
    = Some ((a * b + c)%float, END, EmptyString).
Proof.
  intros Ha Hb Hc. cbn [append].
  split.
  - now rewrite (calculate_three _ _ _ _ _ _ "+" "*" Ha Hb Hc eq_refl eq_refl).
  - now rewrite (calculate_three _ _ _ _ _ _ "*" "+" Ha Hb Hc eq_refl eq_refl).
Qed.

End Short_expressions.

(** Closed literals: the loop of [parse_operand] runs over the text and
    stops at the character after it. *)
Ltac lexes :=
  eexists _, _; split; [reflexivity |];
  let t := fresh "t" in let rest := fresh "rest" in let Ht := fresh "Ht" in
  intros t rest Ht; unfold parse_operand;
  cbn [append getchar Ascii.eqb Bool.eqb is_digit Ascii.leb Ascii.compare
       N_of_ascii N_of_digits N.compare N.add N.mul Pos.compare Pos.compare_cont
       Pos.add Pos.mul Pos.succ andb orb operand_loop operand_step];
  rewrite operand_loop_stop by exact Ht; reflexivity.

(** ** The collapse: shape and invariants of [compute] *)

Section Collapse.

Variable pow : double -> double -> double.

Lemma highest_order_op_cases (ops : array3 ascii) :
  highest_order_op ops = 0 \/ highest_order_op ops = 1.
Proof.
  unfold highest_order_op.
  repeat match goal with |- context [if ?b then _ else _] => destruct b end; auto.
Qed.

Lemma shift_window_collapsed (mode : nat) (w : window) :
  mode = 1 \/ mode = 2 \/ mode = 3 -> collapsed (shift_window mode w).
Proof. intros [-> | [-> | ->]]; unfold collapsed; cbn; auto. Qed.

Lemma shift_window_arith (mode : nat) (w : window) :
  ops_arith w -> ops_arith (shift_window mode w).
Proof.
  intros (H0 & H1 & H2).
  destruct mode as [| [| [| [| mode]]]]; unfold ops_arith; cbn; auto.
Qed.

(** Every path of [compute] on which the trailing operator is an arithmetic
    one ends in a [shift_window] of mode 1, 2 or 3, and writes no operator
    before it. *)
Lemma compute_shape (w : window) :
  is_arith_op (get (operators w) 2) = true ->
  exists mode w',
    (mode = 1 \/ mode = 2 \/ mode = 3)
    /\ operators w' = operators w
    /\ compute pow w = shift_window mode w'.
Proof.
  intros H. unfold compute. cbv zeta.
  destruct ((get (operators w) 2 =? "+") || (get (operators w) 2 =? "-")) eqn:A.
  - destruct (highest_order_op_cases (operators w)) as [P | P]; rewrite P;
      cbn [Nat.eqb]; eexists _, _; (split; [| split; [| reflexivity]]); auto.
  - destruct ((get (operators w) 2 =? "*") || (get (operators w) 2 =? "/")
              || (get (operators w) 2 =? "^")) eqn:B.
    + destruct ((highest_order_op (operators w) =? 0)%nat
                && ((get (operators w) 0 =? "*") || (get (operators w) 0 =? "/"))).
      * destruct ((get (operators w) 1 =? "*") || (get (operators w) 1 =? "/"));
          eexists _, _; (split; [| split; [| reflexivity]]); auto.
      * destruct ((highest_order_op (operators w) =? 1)%nat
                  && ((get (operators w) 1 =? "*") || (get (operators w) 1 =? "/")
                      || (get (operators w) 1 =? "^")));
          eexists _, _; (split; [| split; [| reflexivity]]); auto.
    + exfalso. unfold is_arith_op in H.
      destruct (get (operators w) 2 =? "+"), (get (operators w) 2 =? "-"),
        (get (operators w) 2 =? "*"), (get (operators w) 2 =? "/"),
        (get (operators w) 2 =? "^"); discriminate.
Qed.

Lemma compute_collapsed (w : window) :
  is_arith_op (get (operators w) 2) = true -> collapsed (compute pow w).
Proof.
  intros H. destruct (compute_shape w H) as (mode & w' & Hm & _ & ->).
  now apply shift_window_collapsed.
Qed.

Lemma compute_ops_arith (w : window) : ops_arith w -> ops_arith (compute pow w).
Proof.
  intros Hw. destruct (compute_shape w (proj2 (proj2 Hw))) as (mode & w' & _ & Ho & ->).
  apply shift_window_arith. unfold ops_arith. rewrite Ho. exact Hw.
Qed.

Lemma collapsed_at (w : window) : collapsed w -> window_at w <= 2.
Proof. intros (_ & _ & [H | H]); lia. Qed.

End Collapse.

(** ** What a call of [parse_expr] guarantees *)

Section Lexed.
Variable pow : double -> double -> double.

Lemma operand_loop_length (inp : string) :
  forall c h e o s c' v inp',
    operand_loop pow inp c h e o s = (c', v, inp') ->
    String.length inp' <= String.length inp.
Proof.
  induction inp as [| a inp IH]; intros c h e o s c' v inp'; cbn [operand_loop].
  - destruct (is_digit c || (c =? ".")); [destruct (operand_step pow c h e o) as [[[h' e'] o'] |] |];
      intros [= <- <- <-]; cbn; lia.
  - destruct (is_digit c || (c =? ".")).
    + destruct (operand_step pow c h e o) as [[[h' e'] o'] |].
      * intros H. apply IH in H. cbn. lia.
      * intros [= <- <- <-]. lia.
    + intros [= <- <- <-]. lia.
Qed.

Lemma getchar_length (inp : string) (c : ascii) (inp' : string) :
  getchar inp = (c, inp') ->
  String.length inp' <= String.length inp
  /\ (inp <> EmptyString -> String.length inp' < String.length inp).
Proof.
  destruct inp; intros [= <- <-]; cbn; split; try lia; congruence.
Qed.

Lemma parse_operand_length (c : ascii) (inp : string) c' v inp' :
  parse_operand pow c inp = (c', v, inp') ->
  String.length inp' <= String.length inp.
Proof.
  unfold parse_operand.
  destruct (getchar inp) as [c1 inp1] eqn:G. apply getchar_length in G as [G _].
  repeat match goal with |- context [if ?b then _ else _] => destruct b end;
    intros H; try (apply operand_loop_length in H; lia);
    injection H as <- <- <-; lia.
Qed.

Lemma skip_blanks_length (inp : string) :
  forall c c' inp', skip_blanks inp c = (c', inp') ->
    String.length inp' <= String.length inp.
Proof.
  induction inp as [| a inp IH]; intros c c' inp'; cbn [skip_blanks];
    destruct ((c =? " ") || (c =? tab)).
  - intros [= <- <-]. lia.
  - intros [= <- <-]. lia.
  - intros H. apply IH in H. cbn. lia.
  - intros [= <- <-]. lia.
Qed.

Lemma put_arith (w : window) (i : nat) (c : ascii) :
  ops_arith w -> is_arith_op c = true -> ops_arith (set_operator w i c).
Proof.
  intros (H0 & H1 & H2) Hc. destruct i as [| [| [| i]]]; unfold ops_arith; cbn; auto.
Qed.

Lemma parse_expr_loop_lexed (room : nat) :
  forall w inp, ops_arith w -> window_at w + room = 3 -> 1 <= room ->
    lexed inp (parse_expr_loop pow room w inp).
Proof.
  induction room as [| room IH]; intros w inp Hw Hat Hroom; [lia |].
  destruct inp as [| a inp].
  - cbn. destruct Hw as (H0 & H1 & H2). unfold slot_ok. cbn.
    repeat split; try lia; auto 10; congruence.
  - cbn [parse_expr_loop getchar].
    destruct (parse_operand pow a inp) as [[c v] inp1] eqn:HP.
    apply parse_operand_length in HP.
    assert (Hw1 : ops_arith (set_operand w (window_at w) v)) by exact Hw.
    destruct (c =? "s").
    { destruct Hw as (H0 & H1 & H2). unfold lexed, slot_ok. cbn [String.length].
      repeat split; try lia; auto 10; try congruence; cbn; lia. }
    destruct (skip_blanks inp1 c) as [c2 inp2] eqn:HS.
    apply skip_blanks_length in HS.
    destruct (is_arith_op c2) eqn:Hop.
    { destruct room as [| room].
      - cbn [parse_expr_loop]. pose proof (put_arith _ (window_at w) c2 Hw1 Hop) as (H0 & H1 & H2).
        unfold lexed, slot_ok. cbn [String.length].
        repeat split; try lia; auto 10; try congruence.
      - specialize (IH (set_window_at (set_operator (set_operand w (window_at w) v)
                                          (window_at w) c2) (window_at w + 1)) inp2).
        destruct (parse_expr_loop pow (S room) _ inp2) as [[st w'] inp'].
        destruct IH as (L1 & L2 & L3 & L4 & L5 & L6).
        + now apply put_arith.
        + cbn. lia.
        + lia.
        + unfold lexed. cbn [String.length]. repeat split; try lia; try congruence; tauto. }
    destruct Hw as (H0 & H1 & H2).
    destruct (c2 =? "(").
    { unfold lexed, slot_ok. cbn [String.length].
      repeat split; try lia; auto 10; try congruence; try (cbn; lia).
      all: assert (Hc : window_at w = 0 \/ window_at w = 1 \/ window_at w = 2) by lia;
        destruct Hc as [Hc | [Hc | Hc]]; cbn; rewrite Hc; cbn; auto 10. }
    destruct (c2 =? "o");
      [| destruct (c2 =? ")"); [| destruct (c2 =? newline)]];
      unfold lexed, slot_ok; cbn [String.length];
      repeat split; try lia; auto 10; try congruence; cbn; lia.
Qed.

Lemma parse_expr_lexed (w : window) (inp : string) :
  ops_arith w -> window_at w <= 2 -> lexed inp (parse_expr pow w inp).
Proof.
  intros Hw Hat. unfold parse_expr. apply parse_expr_loop_lexed; auto; lia.
Qed.

End Lexed.

(** ** The evaluator returns on every input *)

Section Totality.
Variable pow : double -> double -> double.

Lemma calculate_loop_log_erase (fuel : nat) :
  forall w inp,
    calculate_loop pow fuel w inp = option_map fst (calculate_loop_log pow fuel w inp).
Proof.
  induction fuel as [| fuel IH]; intros w inp; [reflexivity |].
  cbn [calculate_loop calculate_loop_log].
  destruct (parse_expr pow w inp) as [[status w1] inp1].
  rewrite !IH.
  destruct (status =? ">").
  { destruct (calculate_loop_log pow fuel (compute pow w1) inp1) as [[r log] |]; reflexivity. }
  destruct ((status =? "n") || (status =? "c")); [reflexivity |].
  destruct (status =? "o").
  - destruct (contains_nest_op (operators w1));
      [destruct (window_at (set_operator w1 (window_at w1) "*") <? 2)%nat |];
      (destruct (calculate_loop_log pow fuel init_window inp1) as [[[[v st] inp2] log] |];
       [| reflexivity]);
      cbn [option_map fst]; rewrite !IH;
      destruct (st =? newline); try reflexivity;
      destruct (st =? "s"); try reflexivity;
      match goal with
      | |- context [calculate_loop_log pow fuel ?w ?i] =>
          destruct (calculate_loop_log pow fuel w i) as [[r' log'] |]; reflexivity
      end.
  - destruct (status =? "s"); [reflexivity |].
    destruct (calculate_loop_log pow fuel w1 inp1) as [[r log] |]; reflexivity.
Qed.

Lemma set_operand_arith (w : window) (i : nat) (v : double) :
  ops_arith w -> ops_arith (set_operand w i v).
Proof. exact (fun H => H). Qed.

Lemma lexed_star (status : ascii) (w : window) :
  window_at w <= 2 ->
  slot_ok status w 0 -> slot_ok status w 1 -> slot_ok status w 2 ->
  ops_arith (set_operator w (window_at w) "*").
Proof.
  unfold slot_ok, ops_arith. intros Hat H0 H1 H2.
  assert (Hc : window_at w = 0 \/ window_at w = 1 \/ window_at w = 2) by lia.
  destruct Hc as [Hc | [Hc | Hc]]; rewrite Hc in *; cbn in *;
    destruct H0 as [H0 | (_ & H0 & _)]; try discriminate H0;
    destruct H1 as [H1 | (_ & H1 & _)]; try discriminate H1;
    destruct H2 as [H2 | (_ & H2 & _)]; try discriminate H2;
    repeat split; auto.
Qed.

Lemma lexed_plain (status : ascii) (w : window) :
  window_at w <= 2 ->
  slot_ok status w 0 -> slot_ok status w 1 -> slot_ok status w 2 ->
  status <> "o" \/ contains_nest_op (operators w) = false ->
  ops_arith w.
Proof.
  unfold slot_ok, ops_arith, contains_nest_op. intros Hat H0 H1 H2 Hn.
  repeat split.
  - destruct H0 as [H | (Hs & _ & H)]; [exact H |].
    destruct Hn as [Hn | Hn]; [contradiction |]. rewrite H in Hn. discriminate.
  - destruct H1 as [H | (Hs & _ & H)]; [exact H |].
    destruct Hn as [Hn | Hn]; [contradiction |]. rewrite H in Hn.
    rewrite orb_true_r in Hn. discriminate.
  - destruct H2 as [H | (Hs & _ & H)]; [exact H |].
    destruct Hn as [Hn | Hn]; [contradiction |]. rewrite H in Hn.
    rewrite orb_true_r in Hn. discriminate.
Qed.

Lemma calculate_loop_log_total (fuel : nat) :
  forall w inp,
    String.length inp < fuel -> window_at w <= 2 -> ops_arith w ->
    exists v st inp' log,
      calculate_loop_log pow fuel w inp = Some ((v, st, inp'), log)
      /\ String.length inp' <= String.length inp
      /\ Forall collapsed log.
Proof.
  induction fuel as [| fuel IH]; intros w inp Hlen Hat Hw; [lia |].
  cbn [calculate_loop_log].
  pose proof (parse_expr_lexed pow w inp Hw Hat) as HL.
  destruct (parse_expr pow w inp) as [[status w1] inp1].
  destruct HL as (L1 & L2 & L3 & L4 & L5 & S0 & S1 & S2).
  destruct inp as [| a inp].
  { rewrite (L3 eq_refl). cbn. eauto 10. }
  assert (Hlt : String.length inp1 < fuel) by (cbn in *; specialize (L2 ltac:(discriminate)); lia).
  assert (Hdone : forall (w2 : window) (st : ascii) (inp2 : string) (log : list window),
    ops_arith w2 -> String.length inp2 <= String.length inp1 -> Forall collapsed log ->
    exists v st' inp' log',
      (let w := compute pow w2 in
       if st =? newline then Some ((get (operands w) 0, st, inp2), (log ++ [w])%list)
       else if st =? "s" then Some ((get (operands w) 0, st, inp2), (log ++ [w])%list)
       else match calculate_loop_log pow fuel w inp2 with
            | None => None
            | Some (r, log') => Some (r, (log ++ w :: log')%list)
            end) = Some ((v, st', inp'), log')
      /\ String.length inp' <= String.length (String a inp)
      /\ Forall collapsed log').
  { intros w2 st inp2 log Hw2 Hl2 Hlog. cbv zeta.
    pose proof (compute_collapsed pow w2 (proj2 (proj2 Hw2))) as Hc.
    pose proof (compute_ops_arith pow w2 Hw2) as Ha.
    assert (Hlog' : Forall collapsed (log ++ [compute pow w2])%list)
      by (apply Forall_app; split; auto).
    destruct (st =? newline); [do 4 eexists; repeat split; eauto; lia |].
    destruct (st =? "s"); [do 4 eexists; repeat split; eauto; lia |].
    destruct (IH (compute pow w2) inp2) as (v & st' & inp' & log' & E & El & Ef);
      [lia | now apply collapsed_at | assumption |].
    rewrite E. do 4 eexists; repeat split; eauto; [lia |].
    apply Forall_app; split; auto. }
  destruct L4 as [-> | [-> | [-> | [-> | ->]]]]; cbn [Ascii.eqb Bool.eqb orb newline].
  - (* '>' *)
    assert (Hw1 : ops_arith w1).
    { destruct S0 as [S0 | (? & _)]; [| discriminate].
      destruct S1 as [S1 | (? & _)]; [| discriminate].
      destruct S2 as [S2 | (? & _)]; [| discriminate]. repeat split; assumption. }
    pose proof (compute_collapsed pow w1 (proj2 (proj2 Hw1))) as Hc.
    destruct (IH (compute pow w1) inp1) as (v & st' & inp' & log' & E & El & Ef);
      [lia | now apply collapsed_at | now apply compute_ops_arith |].
    rewrite E. do 4 eexists; repeat split; eauto. lia.
  - (* 'o' *)
    specialize (L5 ltac:(discriminate)).
    pose proof (lexed_star _ _ L5 S0 S1 S2) as Hstar.
    destruct (IH init_window inp1) as (v & st' & inp2 & log & E & El & Ef);
      [lia | cbn; lia | repeat split; reflexivity |].
    rewrite E.
    destruct (contains_nest_op (operators w1)) eqn:Hn;
      [destruct (window_at (set_operator w1 (window_at w1) "*") <? 2)%nat |].
    + apply Hdone; auto.
    + apply Hdone; auto.
      * apply set_operand_arith. now apply compute_ops_arith.
      * constructor; auto. apply compute_collapsed. apply Hstar.
    + apply Hdone; auto. apply set_operand_arith.
      apply (lexed_plain _ _ L5 S0 S1 S2). now right.
  - (* 'c' *)
    specialize (L5 ltac:(discriminate)).
    assert (Hw1 : ops_arith w1)
      by (apply (lexed_plain _ _ L5 S0 S1 S2); left; discriminate).
    do 4 eexists; repeat split; eauto.
    constructor; auto. apply compute_collapsed. apply Hw1.
  - (* 'n' *)
    specialize (L5 ltac:(discriminate)).
    assert (Hw1 : ops_arith w1)
      by (apply (lexed_plain _ _ L5 S0 S1 S2); left; discriminate).
    do 4 eexists; repeat split; eauto.
    constructor; auto. apply compute_collapsed. apply Hw1.
  - (* 's' *)
    do 4 eexists; repeat split; eauto.
Qed.

(** The evaluator returns on every input: with the fuel [calculate] gives
    it, the loop ends with a value, a status and the rest of the input. *)
Theorem calculate_total (inp : string) :
  exists v st inp', calculate pow inp = Some (v, st, inp').
Proof.
  unfold calculate. rewrite calculate_loop_log_erase.
  destruct (calculate_loop_log_total (S (String.length inp)) init_window inp)
    as (v & st & inp' & log & E & _); [lia | cbn; lia | repeat split; reflexivity |].
  rewrite E. cbn. eauto.
Qed.

End Totality.

(** ** Passes of the evaluator over a parenthesised group *)

Section Groups.

Variable pow : double -> double -> double.

(** A pass that meets an operand followed by a group which ends at its
    closing parenthesis, with room in the window: the group's value goes to
    the next operand slot, under a [*]. *)
Lemma calculate_loop_implicit_group (fuel : nat) (w w1 : window)
    (inp inp1 inp2 : string) (v : double) :
  parse_expr pow w inp = ("o", w1, inp1) ->
  contains_nest_op (operators w1) = true ->
  (window_at w1 <? 2)%nat = true ->
  calculate_loop pow fuel init_window inp1 = Some (v, "c", inp2) ->
  calculate_loop pow (S fuel) w inp
  = calculate_loop pow fuel
      (compute pow (set_operand (set_operator w1 (window_at w1) "*")
                                (window_at w1 + 1) v)) inp2.
Proof.
  intros HP Hn Hat HN. cbn [calculate_loop]. rewrite HP.
  cbn [Ascii.eqb Bool.eqb orb]. rewrite Hn.
  cbn [set_operator window_at]. rewrite Hat, HN. reflexivity.
Qed.

(** A pass that meets a group where an operand is expected: whether the
    group ended at a closing parenthesis or at the end of the line, the loop
    goes on. *)
Lemma calculate_loop_group (fuel : nat) (w w1 : window)
    (inp inp1 inp2 : string) (v : double) (status : ascii) :
  parse_expr pow w inp = ("o", w1, inp1) ->
  contains_nest_op (operators w1) = false ->
  calculate_loop pow fuel init_window inp1 = Some (v, status, inp2) ->
  status = "c" \/ status = "n" ->
  calculate_loop pow (S fuel) w inp
  = calculate_loop pow fuel (compute pow (set_operand w1 (window_at w1) v)) inp2.
Proof.
  intros HP Hn HN Hs. cbn [calculate_loop]. rewrite HP.
  cbn [Ascii.eqb Bool.eqb orb]. rewrite Hn, HN.
  destruct Hs as [-> | ->]; reflexivity.
Qed.

End Groups.

(** ** An operand followed at once by a group

    The pass that reads [a(] and the passes that read [a*(] leave the loop
    in the same state, whatever the window held before. *)

Section Implicit.
Variable pow : double -> double -> double.

Lemma compute_ignores_cursor (w : window) (n : nat) :
  is_arith_op (get (operators w) 2) = true ->
  compute pow (set_window_at w n) = compute pow w.
Proof.
  intros H. unfold compute. cbv zeta. cbn [set_window_at operators].
  destruct ((get (operators w) 2 =? "+") || (get (operators w) 2 =? "-")) eqn:A.
  - destruct (highest_order_op_cases (operators w)) as [P | P]; rewrite P;
      reflexivity.
  - destruct ((get (operators w) 2 =? "*") || (get (operators w) 2 =? "/")
              || (get (operators w) 2 =? "^")) eqn:B.
    + destruct ((highest_order_op (operators w) =? 0)%nat
                && ((get (operators w) 0 =? "*") || (get (operators w) 0 =? "/"))).
      * destruct ((get (operators w) 1 =? "*") || (get (operators w) 1 =? "/"));
          reflexivity.
      * destruct ((highest_order_op (operators w) =? 1)%nat
                  && ((get (operators w) 1 =? "*") || (get (operators w) 1 =? "/")
                      || (get (operators w) 1 =? "^"))); reflexivity.
    + exfalso. unfold is_arith_op in H.
      destruct (get (operators w) 2 =? "+"), (get (operators w) 2 =? "-"),
        (get (operators w) 2 =? "*"), (get (operators w) 2 =? "/"),
        (get (operators w) 2 =? "^"); discriminate.
Qed.

Lemma arith_not_open (c : ascii) : is_arith_op c = true -> (c =? "(") = false.
Proof.
  intros H. destruct (is_arith_op_cases c H) as [-> | [-> | [-> | [-> | ->]]]];
    reflexivity.
Qed.

Lemma ops_arith_no_nest (w : window) :
  ops_arith w -> contains_nest_op (operators w) = false.
Proof.
  intros (H0 & H1 & H2). unfold contains_nest_op.
  now rewrite (arith_not_open _ H0), (arith_not_open _ H1), (arith_not_open _ H2).
Qed.

(** The pass over an opening parenthesis where an operand is expected. *)
Lemma parse_expr_loop_group (room : nat) (w : window) (rest : string) :
  parse_expr_loop pow (S room) w (String "(" rest)
  = ("o", set_operand w (window_at w) 0%float, rest).
Proof.
  cbn [parse_expr_loop getchar]. unfold parse_operand.
  cbn [Ascii.eqb Bool.eqb is_digit Ascii.leb Ascii.compare
       N_of_ascii N_of_digits N.compare N.add N.mul Pos.compare Pos.compare_cont
       Pos.add Pos.mul Pos.succ andb orb].
  now rewrite skip_blanks_other.
Qed.

Lemma implicit_pass (fuel : nat) (w : window) (la : string) (a : double)
    (rest : string) :
  lexes_as pow la a -> ops_arith w -> window_at w <= 1 ->
  calculate_loop pow (S fuel) w (la ++ String "(" rest)
  = calculate_loop pow (S fuel) w (la ++ String "*" (String "(" rest)).
Proof.
  intros Ha Hw Hat.
  destruct w as [[o0 o1 o2] [p0 p1 p2] wa]. cbn [window_at] in Hat.
  destruct Hw as (H0 & H1 & H2). cbn [operators get slot0 slot1 slot2] in H0, H1, H2.
  pose proof (arith_not_open _ H0) as N0.
  pose proof (arith_not_open _ H1) as N1.
  pose proof (arith_not_open _ H2) as N2.
  cbn [calculate_loop]. unfold parse_expr. cbn [window_at].
  destruct wa as [| [| wa]]; [| | lia]; cbn [Nat.sub];
    rewrite (parse_expr_loop_open pow _ _ _ _ _ Ha),
            (parse_expr_loop_operator pow _ _ _ _ "*" _ Ha eq_refl),
            parse_expr_loop_group;
    unfold contains_nest_op;
    cbv [set_operand set_operator set_window_at put get operands operators
         window_at slot0 slot1 slot2 Nat.add Nat.ltb Nat.leb];
    cbn [Ascii.eqb Bool.eqb orb]; rewrite ?N0, ?N1, ?N2; cbn [orb];
    destruct (calculate_loop pow fuel init_window rest) as [[[v st] inp2] |];
    try reflexivity.
  - rewrite <- (compute_ignores_cursor
                  (Window (Array3 a v o2) (Array3 "*" p1 p2) 0) 1 H2).
    reflexivity.
  - rewrite <- (compute_ignores_cursor
                  (Window (Array3 o0 a v) (Array3 p0 "*" p2) 1) 2 H2).
    reflexivity.
Qed.

Lemma put_put {A : Type} (a : array3 A) (i : nat) (x y : A) :
  put (put a i x) i y = put a i y.
Proof. destruct i as [| [| [| i]]]; reflexivity. Qed.

(** A pass that starts at a group, from a collapsed window. *)
Lemma calculate_loop_group_first (fuel : nat) (w : window) (rest : string) :
  ops_arith w -> window_at w <= 2 ->
  calculate_loop pow (S fuel) w (String "(" rest)
  = match calculate_loop pow fuel init_window rest with
    | None => None
    | Some (v, status, inp) =>
        let w := compute pow (set_operand w (window_at w) v) in
        if status =? newline then Some (get (operands w) 0, status, inp)
        else if status =? "s" then Some (get (operands w) 0, status, inp)
        else calculate_loop pow fuel w inp
    end.
Proof.
  intros Hw Hat. cbn [calculate_loop]. unfold parse_expr.
  assert (Hroom : exists room, 3 - window_at w = S room)
    by (exists (2 - window_at w); lia).
  destruct Hroom as (room & ->). rewrite parse_expr_loop_group.
  cbn [Ascii.eqb Bool.eqb orb].
  replace (contains_nest_op (operators (set_operand w (window_at w) 0%float)))
    with false by (symmetry; apply (ops_arith_no_nest w Hw)).
  destruct (calculate_loop pow fuel init_window rest) as [[[v st] inp2] |];
    [| reflexivity].
  destruct w as [ops p wa]. unfold set_operand.
  cbn [window_at operands operators]. rewrite put_put. reflexivity.
Qed.

(** The same with the window full: the explicit [*] takes one pass more. *)
Lemma implicit_pass_full (fuel : nat) (w : window) (la : string) (a : double)
    (rest : string) :
  lexes_as pow la a -> ops_arith w -> window_at w = 2 ->
  calculate_loop pow (S fuel) w (la ++ String "(" rest)
  = calculate_loop pow (S (S fuel)) w (la ++ String "*" (String "(" rest)).
Proof.
  intros Ha Hw Hat.
  destruct w as [[o0 o1 o2] [p0 p1 p2] wa]. cbn [window_at] in Hat. subst wa.
  destruct Hw as (H0 & H1 & H2). cbn [operators get slot0 slot1 slot2] in H0, H1, H2.
  pose (w1 := compute pow (Window (Array3 o0 o1 a) (Array3 p0 p1 "*") 2)).
  assert (Hw1 : ops_arith w1)
    by (apply compute_ops_arith; repeat split; assumption).
  assert (Hc1 : window_at w1 <= 2)
    by (destruct (compute_collapsed pow (Window (Array3 o0 o1 a) (Array3 p0 p1 "*") 2)
                    eq_refl) as (_ & _ & [E | E]); fold w1 in E; lia).
  (* the side of the explicit operator: a pass that fills the window, a
     collapse, and a pass that meets the group *)
  transitivity (calculate_loop pow (S fuel) w1 (String "(" rest)).
  2:{ symmetry. rewrite (calculate_loop_compute pow (S fuel) _
                  (Window (Array3 o0 o1 a) (Array3 p0 p1 "*") 3) _ (String "(" rest)).
      - unfold w1.
        now rewrite <- (compute_ignores_cursor
                          (Window (Array3 o0 o1 a) (Array3 p0 p1 "*") 2) 3 eq_refl).
      - unfold parse_expr. cbn [window_at Nat.sub].
        now rewrite (parse_expr_loop_operator pow _ _ _ _ "*" _ Ha eq_refl). }
  rewrite (calculate_loop_group_first fuel w1 rest Hw1 Hc1).
  cbn [calculate_loop]. unfold parse_expr. cbn [window_at Nat.sub].
  rewrite (parse_expr_loop_open pow _ _ _ _ _ Ha).
  cbn [Ascii.eqb Bool.eqb orb].
  unfold contains_nest_op.
  cbv [set_operand set_operator put get operands operators window_at
       slot0 slot1 slot2 Nat.ltb Nat.leb].
  cbn [Ascii.eqb Bool.eqb]. rewrite !orb_true_r.
  destruct (calculate_loop pow fuel init_window rest) as [[[v st] inp2] |];
    reflexivity.
Qed.

(** An operand followed at once by an opening parenthesis is evaluated as
    the operand, a [*] and the parenthesis, from every window the loop of
    [calculate] can stand at. *)
Theorem implicit_as_explicit (w : window) (la : string) (a : double)
    (rest : string) (r : outcome) :
  lexes_as pow la a -> ops_arith w -> window_at w <= 2 ->
  evaluates pow w (la ++ "(" ++ rest) r <-> evaluates pow w (la ++ "*(" ++ rest) r.
Proof.
  intros Ha Hw Hat. cbn [append]. unfold evaluates.
  destruct (Nat.eq_dec (window_at w) 2) as [E | E].
  - split; intros (fuel & H).
    + destruct fuel as [| fuel]; [discriminate |].
      exists (S (S fuel)). now rewrite <- (implicit_pass_full fuel w la a rest Ha Hw E).
    + destruct fuel as [| [| fuel]]; [discriminate | |].
      * exfalso. revert H.
        destruct w as [ops [p0 p1 p2] wa]. cbn [window_at] in E. subst wa.
        rewrite (calculate_loop_compute pow 0 _
                   (set_window_at
                      (set_operator
                         (set_operand (Window ops (Array3 p0 p1 p2) 2) 2 a) 2 "*") 3)
                   _ (String "(" rest)); [discriminate |].
        unfold parse_expr. cbn [window_at Nat.sub].
        now rewrite (parse_expr_loop_operator pow _ _ _ _ "*" _ Ha eq_refl).
      * exists (S fuel). now rewrite (implicit_pass_full fuel w la a rest Ha Hw E).
  - assert (Hle : window_at w <= 1) by lia.
    split; intros (fuel & H); (destruct fuel as [| fuel]; [discriminate |]);
      exists (S fuel).
    + now rewrite <- (implicit_pass fuel w la a rest Ha Hw Hle).
    + now rewrite (implicit_pass fuel w la a rest Ha Hw Hle).
Qed.

End Implicit.

(** ** From the loop to [calculate] *)

Section Bridge.

Variable pow : double -> double -> double.

Lemma calculate_loop_total (fuel : nat) (w : window) (inp : string) :
  String.length inp < fuel -> window_at w <= 2 -> ops_arith w ->
  exists r, calculate_loop pow fuel w inp = Some r.
Proof.
  intros Hf Hat Hw. rewrite calculate_loop_log_erase.
  destruct (calculate_loop_log_total pow fuel w inp Hf Hat Hw)
    as (v & st & inp' & log & E & _).
  rewrite E. cbn. eauto.
Qed.

Lemma init_window_arith : ops_arith init_window.
Proof. repeat split; reflexivity. Qed.

(** Whatever fuel an evaluation from the initial window was found with,
    [calculate] finds the same outcome. *)
Lemma evaluates_calculate (inp : string) (r : outcome) :
  evaluates pow init_window inp r -> calculate pow inp = Some r.
Proof.
  intros (fuel & H). unfold calculate.
  destruct (calculate_loop_total (S (String.length inp)) init_window inp)
    as (r' & E); [lia | cbn; lia | exact init_window_arith |].
  rewrite E. f_equal.
  pose proof (calculate_loop_more_fuel pow _ _ _ _ H
                (fuel + S (String.length inp)) ltac:(lia)) as H1.
  pose proof (calculate_loop_more_fuel pow _ _ _ _ E
                (fuel + S (String.length inp)) ltac:(lia)) as H2.
  congruence.
Qed.

Lemma calculate_evaluates (inp : string) (r : outcome) :
  calculate pow inp = Some r -> evaluates pow init_window inp r.
Proof. intros H. now exists (S (String.length inp)). Qed.

(** A pass that finds the line end or a closing parenthesis where an operand
    starts: the operand slot is cleared. *)
Lemma parse_expr_loop_end_first (room : nat) (w : window) (rest : string) :
  parse_expr_loop pow (S room) w (String newline rest)
  = ("n", set_operand w (window_at w) 0%float, rest).
Proof.
  cbn [parse_expr_loop getchar]. unfold parse_operand, newline.
  cbn [Ascii.eqb Bool.eqb is_digit Ascii.leb Ascii.compare
       N_of_ascii N_of_digits N.compare N.add N.mul Pos.compare Pos.compare_cont
       Pos.add Pos.mul Pos.succ andb orb].
  now rewrite skip_blanks_other.
Qed.

Lemma parse_expr_loop_close_first (room : nat) (w : window) (rest : string) :
  parse_expr_loop pow (S room) w (String ")" rest)
  = ("c", set_operand w (window_at w) 0%float, rest).
Proof.
  cbn [parse_expr_loop getchar]. unfold parse_operand, newline.
  cbn [Ascii.eqb Bool.eqb is_digit Ascii.leb Ascii.compare
       N_of_ascii N_of_digits N.compare N.add N.mul Pos.compare Pos.compare_cont
       Pos.add Pos.mul Pos.succ andb orb].
  now rewrite skip_blanks_other.
Qed.

End Bridge.

(** ** The collapse on windows of one precedence class *)

Section Classes.

Variable pow : double -> double -> double.

Lemma is_additive_cases (c : ascii) : is_additive c = true -> c = "+" \/ c = "-".
Proof.
  unfold is_additive. intros H. apply orb_true_iff in H.
  destruct H as [H | H]; apply Ascii.eqb_eq in H; auto.
Qed.

Lemma is_multiplicative_cases (c : ascii) :
  is_multiplicative c = true -> c = "*" \/ c = "/".
Proof.
  unfold is_multiplicative. intros H. apply orb_true_iff in H.
  destruct H as [H | H]; apply Ascii.eqb_eq in H; auto.
Qed.

Lemma chain_class_cases (cls : ascii -> bool) (c : ascii) :
  chain_class cls -> cls c = true -> c = "+" \/ c = "-" \/ c = "*" \/ c = "/".
Proof.
  intros [-> | ->] H;
    [destruct (is_additive_cases c H) | destruct (is_multiplicative_cases c H)];
    auto.
Qed.

Lemma chain_class_arith (cls : ascii -> bool) (c : ascii) :
  chain_class cls -> cls c = true -> is_arith_op c = true.
Proof.
  intros Hc H.
  destruct (chain_class_cases cls c Hc H) as [-> | [-> | [-> | ->]]]; reflexivity.
Qed.

(** A full window of one class: both operations are done, from left to
    right, and the trailing operator is all that stays. *)
Lemma compute_one_class (cls : ascii -> bool) (a b c : double) (p0 p1 p2 : ascii)
    (n : nat) :
  chain_class cls -> cls p0 = true -> cls p1 = true -> cls p2 = true ->
  compute pow (Window (Array3 a b c) (Array3 p0 p1 p2) n)
  = Window (Array3 (binary pow p1 (binary pow p0 a b) c) 0%float 0%float)
           (Array3 p2 "+" "+") 1.
Proof.
  intros [-> | ->] H0 H1 H2.
  - destruct (is_additive_cases _ H0) as [-> | ->],
      (is_additive_cases _ H1) as [-> | ->],
      (is_additive_cases _ H2) as [-> | ->]; reflexivity.
  - destruct (is_multiplicative_cases _ H0) as [-> | ->],
      (is_multiplicative_cases _ H1) as [-> | ->],
      (is_multiplicative_cases _ H2) as [-> | ->]; reflexivity.
Qed.

(** The last collapse, with three operands of one class in the window. *)
Lemma compute_one_class_last (cls : ascii -> bool) (a b c : double) (p0 p1 : ascii)
    (n : nat) :
  chain_class cls -> cls p0 = true -> cls p1 = true ->
  get (operands (compute pow (Window (Array3 a b c) (Array3 p0 p1 "+") n))) 0
  = binary pow p1 (binary pow p0 a b) c.
Proof.
  intros [-> | ->] H0 H1.
  - destruct (is_additive_cases _ H0) as [-> | ->],
      (is_additive_cases _ H1) as [-> | ->]; reflexivity.
  - destruct (is_multiplicative_cases _ H0) as [-> | ->],
      (is_multiplicative_cases _ H1) as [-> | ->]; reflexivity.
Qed.

(** The last collapse with two operands: the empty third slot is added. *)
Lemma compute_two_last (a b : double) (p0 : ascii) (n : nat) :
  is_arith_op p0 = true ->
  compute pow (Window (Array3 a b 0%float) (Array3 p0 "+" "+") n)
  = Window (Array3 (binary pow p0 a b + 0)%float 0%float 0%float)
           (Array3 "+" "+" "+") 1.
Proof.
  intros H. destruct (is_arith_op_cases _ H) as [-> | [-> | [-> | [-> | ->]]]];
    reflexivity.
Qed.

(** The last collapse with three operands and any two operators. *)
Lemma compute_three_last (a b c : double) (p0 p1 : ascii) (n : nat) :
  is_arith_op p0 = true -> is_arith_op p1 = true ->
  get (operands (compute pow (Window (Array3 a b c) (Array3 p0 p1 "+") n))) 0
  = value3 pow p0 p1 a b c.
Proof.
  intros H0 H1.
  destruct (is_arith_op_cases _ H0) as [-> | [-> | [-> | [-> | ->]]]],
    (is_arith_op_cases _ H1) as [-> | [-> | [-> | [-> | ->]]]]; reflexivity.
Qed.

End Classes.

(** ** Chains of one precedence class *)

Section Chains.

Variable pow : double -> double -> double.
Variable cls : ascii -> bool.
Hypothesis cls_class : chain_class cls.

(** The passes after the first: the window holds the value so far in slot 0
    and the pending operator beside it, and each pass reads two terms. *)
Lemma chain_from_acc (n : nat) :
  forall (items : list term), List.length items <= n -> chain_ok pow cls items ->
  forall (s : double) (p : ascii) (l0 : string) (v0 : double),
    cls p = true -> lexes_as pow l0 v0 ->
    exists r,
      evaluates pow (Window (Array3 s 0%float 0%float) (Array3 p "+" "+") 1)
        (l0 ++ chain_text items LF) (r, END, EmptyString)
      /\ (r = chain_value pow (binary pow p s v0) items
          \/ r = (chain_value pow (binary pow p s v0) items + 0)%float).
Proof.
  induction n as [| n IH]; intros items Hlen Hok s p l0 v0 Hp Hl0.
  - destruct items; [| cbn in Hlen; lia]. cbn [chain_text chain_value].
    eexists. split; [| right; reflexivity]. exists 1.
    rewrite (calculate_loop_finish pow 0 _
               (Window (Array3 s v0 0%float) (Array3 p "+" "+") 1)
               _ EmptyString "n"); [| | now left].
    + now rewrite (compute_two_last pow s v0 p 1 (chain_class_arith cls p cls_class Hp)).
    + unfold parse_expr, LF, str. cbn [window_at Nat.sub].
      now rewrite (parse_expr_loop_end pow _ _ _ _ _ Hl0).
  - destruct items as [| [[p1 l1] v1] [| [[p2 l2] v2] items]].
    + apply (IH []); [cbn; lia | constructor | assumption | assumption].
    + inversion Hok as [| ? ? (Hp1 & Hl1) _]; subst.
      unfold term_op, term_lexes in Hp1, Hl1; cbn [fst snd] in Hp1, Hl1.
      cbn [chain_text chain_value].
      eexists. split; [| left; reflexivity]. exists 1.
      rewrite (calculate_loop_finish pow 0 _
                 (Window (Array3 s v0 v1) (Array3 p p1 "+") 2)
                 _ EmptyString "n"); [| | now left].
      * now rewrite (compute_one_class_last pow cls s v0 v1 p p1 2 cls_class Hp Hp1).
      * unfold parse_expr, LF, str. cbn [window_at Nat.sub].
        rewrite (parse_expr_loop_operator pow _ _ _ _ p1 _ Hl0
                   (chain_class_arith cls p1 cls_class Hp1)).
        now rewrite (parse_expr_loop_end pow _ _ _ _ _ Hl1).
    + inversion Hok as [| ? ? (Hp1 & Hl1) Hok1]; subst.
      inversion Hok1 as [| ? ? (Hp2 & Hl2) Hok2]; subst.
      unfold term_op, term_lexes in Hp1, Hl1, Hp2, Hl2; cbn [fst snd] in Hp1, Hl1, Hp2, Hl2.
      cbn [chain_text chain_value].
      destruct (IH items ltac:(cbn in Hlen; lia) Hok2
                  (binary pow p1 (binary pow p s v0) v1) p2 l2 v2 Hp2 Hl2)
        as (r & (fuel & Hr) & Hv).
      exists r. split; [| exact Hv]. exists (S fuel).
      rewrite (calculate_loop_compute pow fuel _
                 (Window (Array3 s v0 v1) (Array3 p p1 p2) 3)
                 _ (l2 ++ chain_text items LF)).
      * now rewrite (compute_one_class pow cls s v0 v1 p p1 p2 3 cls_class Hp Hp1 Hp2).
      * unfold parse_expr. cbn [window_at Nat.sub].
        rewrite (parse_expr_loop_operator pow _ _ _ _ p1 _ Hl0
                   (chain_class_arith cls p1 cls_class Hp1)).
        now rewrite (parse_expr_loop_operator pow _ _ _ _ p2 _ Hl1
                       (chain_class_arith cls p2 cls_class Hp2)).
Qed.

(** The first pass starts from the empty window and reads three terms. *)
Lemma chain_from_start (l0 : string) (a0 : double) (items : list term) :
  lexes_as pow l0 a0 -> chain_ok pow cls items ->
  exists r,
    evaluates pow init_window (l0 ++ chain_text items LF) (r, END, EmptyString)
    /\ (r = chain_value pow a0 items \/ r = (chain_value pow a0 items + 0)%float).
Proof.
  intros Hl0 Hok.
  destruct items as [| [[p1 l1] v1] [| [[p2 l2] v2] [| [[p3 l3] v3] items]]].
  - cbn [chain_text chain_value]. exists (a0 + 0)%float. split; [| now right].
    apply calculate_evaluates. rewrite (calculate_one pow _ _ Hl0).
    now rewrite FloatFacts.add_zero_idem.
  - inversion Hok as [| ? ? (Hp1 & Hl1) _]; subst.
    unfold term_op, term_lexes in Hp1, Hl1; cbn [fst snd] in Hp1, Hl1.
    pose proof (chain_class_arith cls p1 cls_class Hp1) as A1.
    cbn [chain_text chain_value]. eexists. split; [| right; reflexivity].
    apply calculate_evaluates. rewrite (calculate_two pow _ _ _ _ _ Hl0 Hl1 A1).
    now rewrite (compute_two_last pow a0 v1 p1 1 A1).
  - inversion Hok as [| ? ? (Hp1 & Hl1) Hok1]; subst.
    inversion Hok1 as [| ? ? (Hp2 & Hl2) _]; subst.
    unfold term_op, term_lexes in Hp1, Hl1, Hp2, Hl2; cbn [fst snd] in Hp1, Hl1, Hp2, Hl2.
    pose proof (chain_class_arith cls p1 cls_class Hp1) as A1.
    pose proof (chain_class_arith cls p2 cls_class Hp2) as A2.
    cbn [chain_text chain_value]. eexists. split; [| left; reflexivity].
    apply calculate_evaluates.
    rewrite (calculate_three pow _ _ _ _ _ _ _ _ Hl0 Hl1 Hl2 A1 A2).
    now rewrite (compute_one_class_last pow cls a0 v1 v2 p1 p2 2 cls_class Hp1 Hp2).
  - inversion Hok as [| ? ? (Hp1 & Hl1) Hok1]; subst.
    inversion Hok1 as [| ? ? (Hp2 & Hl2) Hok2]; subst.
    inversion Hok2 as [| ? ? (Hp3 & Hl3) Hok3]; subst.
    unfold term_op, term_lexes in Hp1, Hl1, Hp2, Hl2, Hp3, Hl3;
      cbn [fst snd] in Hp1, Hl1, Hp2, Hl2, Hp3, Hl3.
    cbn [chain_text chain_value].
    destruct (chain_from_acc (List.length items) items (le_n _) Hok3
                (binary pow p2 (binary pow p1 a0 v1) v2) p3 l3 v3 Hp3 Hl3)
      as (r & (fuel & Hr) & Hv).
    exists r. split; [| exact Hv]. exists (S fuel).
    rewrite (calculate_loop_compute pow fuel _
               (Window (Array3 a0 v1 v2) (Array3 p1 p2 p3) 3)
               _ (l3 ++ chain_text items LF)).
    + now rewrite (compute_one_class pow cls a0 v1 v2 p1 p2 p3 3 cls_class Hp1 Hp2 Hp3).
    + unfold parse_expr. cbn [init_window window_at Nat.sub].
      rewrite (parse_expr_loop_operator pow _ _ _ _ p1 _ Hl0
                 (chain_class_arith cls p1 cls_class Hp1)).
      rewrite (parse_expr_loop_operator pow _ _ _ _ p2 _ Hl1
                 (chain_class_arith cls p2 cls_class Hp2)).
      now rewrite (parse_expr_loop_operator pow _ _ _ _ p3 _ Hl2
                     (chain_class_arith cls p3 cls_class Hp3)).
Qed.

End Chains.

(** ** Groups *)

Section Group_facts.

Variable pow : double -> double -> double.

Lemma is_terminator_cases (t : ascii) :
  is_terminator t = true -> t = ")" \/ t = newline.
Proof.
  unfold is_terminator. intros H. apply orb_true_iff in H.
  destruct H as [H | H]; apply Ascii.eqb_eq in H; auto.
Qed.

(** The pass that ends an evaluation whose window holds one value: the two
    empty slots are added to it. *)
Lemma calculate_loop_last_pass (fuel : nat) (x : double) (t : ascii) (rest : string) :
  is_terminator t = true ->
  calculate_loop pow (S fuel)
    (Window (Array3 x 0%float 0%float) (Array3 "+" "+" "+") 1) (String t rest)
  = Some ((x + 0 + 0)%float, terminator_status t, rest).
Proof.
  intros Ht. destruct (is_terminator_cases t Ht) as [-> | ->].
  - rewrite (calculate_loop_finish pow fuel _
               (Window (Array3 x 0%float 0%float) (Array3 "+" "+" "+") 1)
               _ rest "c"); [reflexivity | | now right].
    unfold parse_expr. cbn [window_at Nat.sub].
    now rewrite parse_expr_loop_close_first.
  - rewrite (calculate_loop_finish pow fuel _
               (Window (Array3 x 0%float 0%float) (Array3 "+" "+" "+") 1)
               _ rest "n"); [reflexivity | | now left].
    unfold parse_expr. cbn [window_at Nat.sub].
    now rewrite parse_expr_loop_end_first.
Qed.

(** A group at the start of an evaluation, closed and followed by a
    terminator. *)
Lemma calculate_loop_lone_group (fuel : nat) (inp : string) (v : double)
    (t : ascii) (rest : string) :
  calculate_loop pow fuel init_window inp = Some (v, "c", String t rest) ->
  is_terminator t = true ->
  calculate_loop pow (S fuel) init_window (String "(" inp)
  = Some ((v + 0)%float, terminator_status t, rest).
Proof.
  intros H Ht.
  rewrite (calculate_loop_group_first pow fuel init_window inp
             (init_window_arith) ltac:(cbn; lia)).
  rewrite H. cbv zeta. cbn [Ascii.eqb Bool.eqb newline].
  change (set_operand init_window (window_at init_window) v)
    with (Window (Array3 v 0%float 0%float) (Array3 "+" "+" "+") 0).
  rewrite (compute_two_last pow v 0%float "+" 0 eq_refl).
  destruct fuel as [| fuel]; [discriminate |].
  rewrite (calculate_loop_last_pass fuel _ t rest Ht).
  unfold binary. cbn [Ascii.eqb Bool.eqb].
  now rewrite !FloatFacts.add_zero_idem.
Qed.

(** An operand, an operator and a group, closed and followed by a
    terminator. *)
Lemma calculate_loop_operator_group (fuel : nat) (la : string) (a : double)
    (op : ascii) (inp : string) (v : double) (t : ascii) (rest : string) :
  lexes_as pow la a -> is_arith_op op = true ->
  calculate_loop pow fuel init_window inp = Some (v, "c", String t rest) ->
  is_terminator t = true ->
  calculate_loop pow (S fuel) init_window (la ++ String op (String "(" inp))
  = Some ((binary pow op a v + 0)%float, terminator_status t, rest).
Proof.
  intros Ha Hop H Ht.
  rewrite (calculate_loop_group pow fuel init_window
             (Window (Array3 a 0%float 0%float) (Array3 op "+" "+") 1)
             _ inp (String t rest) v "c"); [| | | exact H | now left].
  - change (set_operand (Window (Array3 a 0%float 0%float) (Array3 op "+" "+") 1)
              (window_at (Window (Array3 a 0%float 0%float) (Array3 op "+" "+") 1)) v)
      with (Window (Array3 a v 0%float) (Array3 op "+" "+") 1).
    rewrite (compute_two_last pow a v op 1 Hop).
    destruct fuel as [| fuel]; [discriminate |].
    rewrite (calculate_loop_last_pass fuel _ t rest Ht).
    now rewrite !FloatFacts.add_zero_idem.
  - unfold parse_expr. cbn [init_window window_at Nat.sub].
    rewrite (parse_expr_loop_operator pow _ _ _ _ op _ Ha Hop).
    now rewrite parse_expr_loop_group.
  - apply ops_arith_no_nest. repeat split; try reflexivity. exact Hop.
Qed.

(** An operand followed at once by a group, closed and followed by a
    terminator. *)
Lemma calculate_loop_implicit_alone (fuel : nat) (la : string) (a : double)
    (inp : string) (v : double) (t : ascii) (rest : string) :
  lexes_as pow la a ->
  calculate_loop pow fuel init_window inp = Some (v, "c", String t rest) ->
  is_terminator t = true ->
  calculate_loop pow (S fuel) init_window (la ++ String "(" inp)
  = Some ((a * v + 0)%float, terminator_status t, rest).
Proof.
  intros Ha H Ht.
  rewrite (calculate_loop_implicit_group pow fuel init_window
             (Window (Array3 a 0%float 0%float) (Array3 "(" "+" "+") 0)
             _ inp (String t rest) v); [| | reflexivity | reflexivity | exact H].
  - change (set_operand
              (set_operator (Window (Array3 a 0%float 0%float) (Array3 "(" "+" "+") 0)
                 (window_at (Window (Array3 a 0%float 0%float) (Array3 "(" "+" "+") 0))
                 "*")
              (window_at (Window (Array3 a 0%float 0%float) (Array3 "(" "+" "+") 0) + 1)
              v)
      with (Window (Array3 a v 0%float) (Array3 "*" "+" "+") 0).
    rewrite (compute_two_last pow a v "*" 0 eq_refl).
    destruct fuel as [| fuel]; [discriminate |].
    rewrite (calculate_loop_last_pass fuel _ t rest Ht).
    unfold binary. cbn [Ascii.eqb Bool.eqb].
    now rewrite !FloatFacts.add_zero_idem.
  - unfold parse_expr. cbn [init_window window_at Nat.sub].
    now rewrite (parse_expr_loop_open pow _ _ _ _ _ Ha).
Qed.

(** A sign with no digit after it is read as a zero of that sign. *)
Lemma sign_lexes (c : ascii) (sign : double) :
  (c = "-" /\ sign = (-1)%float) \/ (c = "+" /\ sign = 1%float) ->
  lexes_as pow (str c) (0 * sign)%float.
Proof.
  intros [(-> & ->) | (-> & ->)]; eexists _, _; (split; [reflexivity |]);
    intros t rest Ht; unfold parse_operand; cbn [Ascii.eqb Bool.eqb append getchar];
    now rewrite operand_loop_stop.
Qed.

(** After a group at the start of an evaluation: the window holds the value
    of the group in slot 0, the operator [+] beside it, and the cursor is
    at 1. *)
Lemma calculate_loop_after_group (fuel : nat) (inp : string) (v : double)
    (inp1 : string) :
  calculate_loop pow fuel init_window inp = Some (v, "c", inp1) ->
  calculate_loop pow (S fuel) init_window (String "(" inp)
  = calculate_loop pow fuel
      (Window (@Array3 double (v + 0)%float 0%float 0%float) (Array3 "+" "+" "+") 1) inp1.
Proof.
  intros H.
  rewrite (calculate_loop_group_first pow fuel init_window inp
             (init_window_arith) ltac:(cbn; lia)).
  rewrite H. cbv zeta. cbn [Ascii.eqb Bool.eqb newline].
  change (set_operand init_window (window_at init_window) v)
    with (Window (Array3 v 0%float 0%float) (Array3 "+" "+" "+") 0).
  rewrite (compute_two_last pow v 0%float "+" 0 eq_refl).
  unfold binary. cbn [Ascii.eqb Bool.eqb].
  now rewrite FloatFacts.add_zero_idem.
Qed.

(** An operand after a group: it is added to the value of the group. *)
Lemma calculate_loop_group_operand (fuel : nat) (inp : string) (v : double)
    (la : string) (a : double) (t : ascii) (rest : string) :
  lexes_as pow la a ->
  calculate_loop pow fuel init_window inp = Some (v, "c", la ++ String t rest) ->
  is_terminator t = true ->
  calculate_loop pow (S fuel) init_window (String "(" inp)
  = Some ((v + 0 + a + 0)%float, terminator_status t, rest).
Proof.
  intros Ha H Ht. rewrite (calculate_loop_after_group fuel inp v _ H).
  destruct fuel as [| fuel]; [discriminate |].
  destruct (is_terminator_cases t Ht) as [-> | ->].
  - rewrite (calculate_loop_finish pow fuel _
               (Window (@Array3 double (v + 0)%float a 0%float) (Array3 "+" "+" "+") 1)
               _ rest "c"); [| | now right].
    + now rewrite (compute_two_last pow (v + 0)%float a "+" 1 eq_refl).
    + unfold parse_expr. cbn [window_at Nat.sub].
      now rewrite (parse_expr_loop_close pow _ _ _ _ _ Ha).
  - rewrite (calculate_loop_finish pow fuel _
               (Window (@Array3 double (v + 0)%float a 0%float) (Array3 "+" "+" "+") 1)
               _ rest "n"); [| | now left].
    + now rewrite (compute_two_last pow (v + 0)%float a "+" 1 eq_refl).
    + unfold parse_expr. cbn [window_at Nat.sub].
      now rewrite (parse_expr_loop_end pow _ _ _ _ _ Ha).
Qed.

(** A group after a group: its value is added to that of the first. *)
Lemma calculate_loop_group_group (fuel : nat) (inp : string) (v1 : double)
    (inp2 : string) (v2 : double) (t : ascii) (rest : string) :
  calculate_loop pow fuel init_window inp = Some (v1, "c", String "(" inp2) ->
  calculate_loop pow fuel init_window inp2 = Some (v2, "c", String t rest) ->
  is_terminator t = true ->
  calculate_loop pow (S (S fuel)) init_window (String "(" inp)
  = Some ((v1 + 0 + v2 + 0)%float, terminator_status t, rest).
Proof.
  intros H1 H2 Ht.
  rewrite (calculate_loop_after_group (S fuel) inp v1 _
             (calculate_loop_more_fuel pow _ _ _ _ H1 (S fuel) (le_S _ _ (le_n _)))).
  rewrite (calculate_loop_group_first pow fuel _ inp2); [| repeat split | cbn; lia].
  rewrite H2. cbv zeta. cbn [Ascii.eqb Bool.eqb newline].
  change (set_operand
            (Window (@Array3 double (v1 + 0)%float 0%float 0%float) (Array3 "+" "+" "+") 1)
            (window_at
               (Window (@Array3 double (v1 + 0)%float 0%float 0%float) (Array3 "+" "+" "+") 1))
            v2)
    with (Window (@Array3 double (v1 + 0)%float v2 0%float) (Array3 "+" "+" "+") 1).
  rewrite (compute_two_last pow (v1 + 0)%float v2 "+" 1 eq_refl).
  destruct fuel as [| fuel]; [discriminate |].
  rewrite (calculate_loop_last_pass fuel _ t rest Ht).
  unfold binary. cbn [Ascii.eqb Bool.eqb].
  now rewrite !FloatFacts.add_zero_idem.
Qed.

Lemma repeat_char_shift (n : nat) (c : ascii) (s : string) :
  repeat_char n c ++ String c s = String c (repeat_char n c ++ s).
Proof. induction n as [| n IH]; cbn; [reflexivity | now rewrite IH]. Qed.

(** A literal inside [n] pairs of parentheses, followed by a terminator. *)
Lemma literal_in_groups (l : string) (a : double) (n : nat) :
  lexes_as pow l a ->
  forall (t : ascii) (rest : string), is_terminator t = true ->
    evaluates pow init_window
      (repeat_char n "(" ++ l ++ repeat_char n ")" ++ String t rest)
      ((a + 0)%float, terminator_status t, rest).
Proof.
  intros Hl. induction n as [| n IH]; intros t rest Ht.
  - cbn [repeat_char append]. exists 1.
    destruct (is_terminator_cases t Ht) as [-> | ->].
    + rewrite (calculate_loop_finish pow 0 _ (set_operand init_window 0 a)
                 _ rest "c"); [| | now right].
      * cbn -[PrimFloat.add]. now rewrite FloatFacts.add_zero_idem.
      * unfold parse_expr. cbn [init_window window_at Nat.sub].
        now rewrite (parse_expr_loop_close pow _ _ _ _ _ Hl).
    + rewrite (calculate_loop_finish pow 0 _ (set_operand init_window 0 a)
                 _ rest "n"); [| | now left].
      * cbn -[PrimFloat.add]. now rewrite FloatFacts.add_zero_idem.
      * unfold parse_expr. cbn [init_window window_at Nat.sub].
        now rewrite (parse_expr_loop_end pow _ _ _ _ _ Hl).
  - destruct (IH ")" (String t rest) eq_refl) as (fuel & H).
    exists (S fuel). cbn [repeat_char append].
    rewrite <- (repeat_char_shift n ")" (String t rest)) .
    rewrite (calculate_loop_lone_group fuel _ (a + 0)%float t rest H Ht).
    now rewrite FloatFacts.add_zero_idem.
Qed.

(** A syntax error in a group ends the evaluation that met the group. *)
Lemma calculate_loop_group_error (fuel : nat) (w : window) (inp : string)
    (v : double) (rest : string) :
  ops_arith w -> window_at w <= 2 ->
  calculate_loop pow fuel init_window inp = Some (v, "s", rest) ->
  exists r, calculate_loop pow (S fuel) w (String "(" inp) = Some (r, "s", rest).
Proof.
  intros Hw Hat H. rewrite (calculate_loop_group_first pow fuel w inp Hw Hat).
  rewrite H. cbv zeta. cbn [Ascii.eqb Bool.eqb newline]. eauto.
Qed.

End Group_facts.

(** ** Where the lexer and the evaluator stop *)

Section Stops.

Variable pow : double -> double -> double.

Lemma tail_of_refl (inp : string) : tail_of inp inp.
Proof. now exists EmptyString. Qed.

Lemma tail_of_cons (c : ascii) (inp rest : string) :
  tail_of inp rest -> tail_of (String c inp) rest.
Proof. intros (pre & ->). now exists (String c pre). Qed.

Lemma tail_of_trans (inp inp1 rest : string) :
  tail_of inp inp1 -> tail_of inp1 rest -> tail_of inp rest.
Proof.
  intros (p1 & ->) (p2 & ->). exists (p1 ++ p2). now rewrite append_assoc.
Qed.

Lemma stops_after_tail (inp : string) (c : ascii) (rest : string) :
  stops_after inp c rest -> tail_of inp rest.
Proof.
  intros (pre & ->). exists (pre ++ String c EmptyString).
  now rewrite append_assoc.
Qed.

Lemma stops_after_extend (inp inp1 : string) (c : ascii) (rest : string) :
  tail_of inp inp1 -> stops_after inp1 c rest -> stops_after inp c rest.
Proof.
  intros (p1 & ->) (p2 & ->). exists (p1 ++ p2). now rewrite append_assoc.
Qed.

Lemma stops_after_cons (c0 : ascii) (inp : string) (c : ascii) (rest : string) :
  stops_after inp c rest -> stops_after (String c0 inp) c rest.
Proof. intros (pre & ->). now exists (String c0 pre). Qed.

Lemma outcome_shape_tail (inp : string) (st : ascii) (rest : string) :
  outcome_shape inp st rest -> tail_of inp rest.
Proof.
  intros [(_ & H) | [(_ & H) | (_ & H)]];
    [now apply stops_after_tail in H | now apply stops_after_tail in H | exact H].
Qed.

Lemma outcome_shape_extend (inp inp1 : string) (st : ascii) (rest : string) :
  tail_of inp inp1 -> outcome_shape inp1 st rest -> outcome_shape inp st rest.
Proof.
  intros Ht [(E & H) | [(E & H) | (E & H)]].
  - left. split; [exact E | now apply (stops_after_extend inp inp1)].
  - right; left. split; [exact E | now apply (stops_after_extend inp inp1)].
  - right; right. split; [exact E | now apply (tail_of_trans inp inp1)].
Qed.

Lemma reads_stay (c : ascii) (inp : string) : reads c inp c inp.
Proof. split; [apply tail_of_refl | now left]. Qed.

Lemma reads_status (c : ascii) (inp : string) (st : ascii) :
  is_terminator st = false -> reads c inp st inp.
Proof. intros H. split; [apply tail_of_refl | rewrite H; discriminate]. Qed.

Lemma reads_next (c c1 : ascii) (inp1 : string) (c' : ascii) (rest : string) :
  reads c1 inp1 c' rest -> reads c (String c1 inp1) c' rest.
Proof.
  intros (Ht & Hs). split; [now apply tail_of_cons |].
  intros H. right. destruct (Hs H) as [(-> & ->) | Hst].
  - now exists EmptyString.
  - now apply stops_after_cons.
Qed.

Lemma reads_trans (c0 : ascii) (inp0 : string) (c1 : ascii) (inp1 : string)
    (c2 : ascii) (inp2 : string) :
  reads c0 inp0 c1 inp1 -> reads c1 inp1 c2 inp2 -> reads c0 inp0 c2 inp2.
Proof.
  intros (T1 & S1) (T2 & S2). split; [now apply (tail_of_trans inp0 inp1) |].
  intros H. destruct (S2 H) as [(-> & ->) | Hst].
  - exact (S1 H).
  - right. now apply (stops_after_extend inp0 inp1).
Qed.

Lemma operand_loop_reads (inp : string) :
  forall c h e o s c' v rest,
    operand_loop pow inp c h e o s = (c', v, rest) -> reads c inp c' rest.
Proof.
  induction inp as [| c1 inp1 IH]; intros c h e o s c' v rest H;
    cbn [operand_loop] in H;
    destruct (is_digit c || (c =? ".")).
  - destruct (operand_step pow c h e o) as [[[h' e'] o'] |];
      inversion H; subst; now apply reads_status.
  - inversion H; subst. apply reads_stay.
  - destruct (operand_step pow c h e o) as [[[h' e'] o'] |].
    + apply reads_next. exact (IH _ _ _ _ _ _ _ _ H).
    + inversion H; subst. now apply reads_status.
  - inversion H; subst. apply reads_stay.
Qed.

Lemma skip_blanks_reads (inp : string) :
  forall c c' rest, skip_blanks inp c = (c', rest) -> reads c inp c' rest.
Proof.
  induction inp as [| c1 inp1 IH]; intros c c' rest H; cbn [skip_blanks] in H;
    destruct ((c =? " ") || (c =? tab)).
  - inversion H; subst. now apply reads_status.
  - inversion H; subst. apply reads_stay.
  - apply reads_next. exact (IH _ _ _ H).
  - inversion H; subst. apply reads_stay.
Qed.

Lemma parse_operand_reads (c : ascii) (inp : string) c' v rest :
  parse_operand pow c inp = (c', v, rest) -> reads c inp c' rest.
Proof.
  unfold parse_operand. intros H.
  assert (Hscan : forall sign operand h,
            (let (c1, inp1) := getchar inp in
             operand_loop pow inp1 c1 h 0 operand sign) = (c', v, rest) ->
            reads c inp c' rest).
  { intros sign operand h Hs. destruct inp as [| c1 inp1]; cbn [getchar] in Hs.
    - cbn in Hs. inversion Hs; subst. now apply reads_status.
    - apply reads_next. exact (operand_loop_reads _ _ _ _ _ _ _ _ _ Hs). }
  destruct (c =? "-"); [exact (Hscan _ _ _ H) |].
  destruct (c =? "+"); [exact (Hscan _ _ _ H) |].
  destruct (is_digit c); [exact (Hscan _ _ _ H) |].
  destruct (c =? "."); [exact (Hscan _ _ _ H) |].
  destruct ((c =? "*") || (c =? "/"));
    [inversion H; subst; now apply reads_status |].
  destruct (c =? "("); [inversion H; subst; now apply reads_status |].
  inversion H; subst. apply reads_stay.
Qed.

(** A pass of [parse_expr] consumes a prefix of the input; when it reports
    the line end or a closing parenthesis, that character is the last one it
    has read. *)
Lemma parse_expr_loop_stops (room : nat) :
  forall w inp st w' rest,
    parse_expr_loop pow room w inp = (st, w', rest) ->
    tail_of inp rest
    /\ (st = "n" -> stops_after inp newline rest)
    /\ (st = "c" -> stops_after inp ")" rest).
Proof.
  induction room as [| room IH]; intros w inp st w' rest H.
  - cbn in H. inversion H; subst.
    split; [apply tail_of_refl | split; discriminate].
  - destruct inp as [| c0 inp0].
    + cbn in H. inversion H; subst.
      split; [apply tail_of_refl | split; discriminate].
    + cbn [parse_expr_loop getchar] in H.
      destruct (parse_operand pow c0 inp0) as [[c1 v] inp1] eqn:HP.
      pose proof (parse_operand_reads _ _ _ _ _ HP) as R1.
      destruct (c1 =? "s").
      { inversion H; subst.
        split; [apply tail_of_cons, R1 | split; discriminate]. }
      destruct (skip_blanks inp1 c1) as [c2 inp2] eqn:HS.
      pose proof (reads_trans _ _ _ _ _ _ R1 (skip_blanks_reads _ _ _ _ HS)) as R2.
      destruct R2 as (T2 & S2).
      assert (Hterm : is_terminator c2 = true -> stops_after (String c0 inp0) c2 inp2).
      { intros Ht. destruct (S2 Ht) as [(-> & ->) | Hst].
        - now exists EmptyString.
        - now apply stops_after_cons. }
      destruct (is_arith_op c2).
      { destruct (IH _ _ _ _ _ H) as (T & Sn & Sc).
        pose proof (tail_of_cons c0 _ _ T2) as T0.
        split; [now apply (tail_of_trans _ inp2) |].
        split; intros E; [apply (stops_after_extend _ inp2); auto
                         | apply (stops_after_extend _ inp2); auto]. }
      destruct (c2 =? "(").
      { inversion H; subst. split; [now apply tail_of_cons | split; discriminate]. }
      destruct (c2 =? "o").
      { inversion H; subst. split; [now apply tail_of_cons | split; discriminate]. }
      destruct (c2 =? ")") eqn:Ec.
      { inversion H; subst. apply Ascii.eqb_eq in Ec. subst c2.
        split; [now apply tail_of_cons |].
        split; [discriminate | intros _; now apply Hterm]. }
      destruct (c2 =? newline) eqn:En.
      { inversion H; subst. apply Ascii.eqb_eq in En. subst c2.
        split; [now apply tail_of_cons |].
        split; [intros _; now apply Hterm | discriminate]. }
      inversion H; subst. split; [now apply tail_of_cons | split; discriminate].
Qed.

(** What an evaluation that has stopped leaves of its input. *)
Lemma calculate_loop_stops (fuel : nat) :
  forall w inp v st rest,
    calculate_loop pow fuel w inp = Some (v, st, rest) ->
    outcome_shape inp st rest.
Proof.
  induction fuel as [| fuel IH]; intros w inp v st rest H; [discriminate |].
  cbn [calculate_loop] in H.
  destruct (parse_expr pow w inp) as [[st1 w1] inp1] eqn:HP.
  destruct (parse_expr_loop_stops _ _ _ _ _ _ HP) as (T1 & Sn & Sc).
  destruct (st1 =? ">").
  { apply (outcome_shape_extend inp inp1 _ _ T1). exact (IH _ _ _ _ _ H). }
  destruct ((st1 =? "n") || (st1 =? "c")) eqn:E.
  { inversion H; subst. apply orb_true_iff in E.
    destruct E as [E | E]; apply Ascii.eqb_eq in E; subst st.
    - left. split; [reflexivity | now apply Sn].
    - right; left. split; [reflexivity | now apply Sc]. }
  destruct (st1 =? "o").
  { assert (Hnested : forall (w2 : window) (k : double -> window),
              match
                match calculate_loop pow fuel init_window inp1 with
                | None => None
                | Some (v0, status, inp0) => Some (k v0, status, inp0)
                end
              with
              | None => None
              | Some (w0, status, inp0) =>
                  let w3 := compute pow w0 in
                  if status =? newline then Some (get (operands w3) 0, status, inp0)
                  else if status =? "s" then Some (get (operands w3) 0, status, inp0)
                  else calculate_loop pow fuel w3 inp0
              end = Some (v, st, rest) ->
              outcome_shape inp st rest).
    { intros _ k Hk.
      destruct (calculate_loop pow fuel init_window inp1) as [[[v0 st0] inp0] |] eqn:EN;
        [| discriminate].
      pose proof (IH _ _ _ _ _ EN) as Sh0.
      pose proof (tail_of_trans _ _ _ T1 (outcome_shape_tail _ _ _ Sh0)) as T0.
      cbv zeta in Hk.
      destruct Sh0 as [(-> & _) | [(-> & _) | (-> & _)]];
        cbn [Ascii.eqb Bool.eqb newline END CLOSE SYNTAX_ERROR] in Hk.
      - apply (outcome_shape_extend inp inp0 _ _ T0). exact (IH _ _ _ _ _ Hk).
      - apply (outcome_shape_extend inp inp0 _ _ T0). exact (IH _ _ _ _ _ Hk).
      - inversion Hk; subst. right; right. now split. }
    destruct (contains_nest_op (operators w1)).
    - destruct (window_at (set_operator w1 (window_at w1) "*") <? 2)%nat.
      + exact (Hnested w1 _ H).
      + exact (Hnested w1 _ H).
    - exact (Hnested w1 _ H). }
  destruct (st1 =? "s") eqn:Es.
  { inversion H; subst. apply Ascii.eqb_eq in Es. subst st.
    right; right. now split. }
  apply (outcome_shape_extend inp inp1 _ _ T1). exact (IH _ _ _ _ _ H).
Qed.

End Stops.

(** ** Text without groups, up to its terminator *)

Section Terminators.

Variable pow : double -> double -> double.

Lemma terminator_not_operand (t : ascii) :
  is_terminator t = true -> is_operand_char t = false.
Proof. intros H. destruct (is_terminator_cases t H) as [-> | ->]; reflexivity. Qed.

Lemma terminator_not_blank (t : ascii) :
  is_terminator t = true -> (t =? " ") || (t =? tab) = false.
Proof. intros H. destruct (is_terminator_cases t H) as [-> | ->]; reflexivity. Qed.

Lemma plain_cons (c : ascii) (s : string) :
  plain (String c s) = true -> plain_char c = true /\ plain s = true.
Proof. cbn [plain]. intros H. now apply andb_true_iff in H. Qed.

Lemma plain_char_not_open (c : ascii) :
  plain_char c = true ->
  (c =? newline) = false /\ (c =? "(") = false /\ (c =? "o") = false.
Proof.
  unfold plain_char. intros H.
  destruct (c =? newline), (c =? "("), (c =? "o"); try discriminate; auto.
Qed.

Lemma operand_loop_scan (pre : string) :
  forall c h e o s,
    plain pre = true -> plain_char c = true ->
    (exists c' v pre1,
       scan_inside (fun inp => operand_loop pow inp c h e o s) pre c' v pre1)
    \/ (exists v, scan_through (fun inp => operand_loop pow inp c h e o s) pre v).
Proof.
  induction pre as [| c1 pre1 IH]; intros c h e o s Hpre Hc.
  - destruct (is_digit c || (c =? ".")) eqn:Ec.
    + destruct (operand_step pow c h e o) as [[[h' e'] o'] |] eqn:Es.
      * right. exists (o' * s)%float. intros t rest Ht.
        cbn [append operand_loop]. rewrite Ec, Es.
        now rewrite (operand_loop_stop pow _ _ _ _ _ _ (terminator_not_operand t Ht)).
      * left. exists "s", o, EmptyString. split; [reflexivity |].
        split; [reflexivity |]. intros t rest Ht.
        cbn [append operand_loop]. now rewrite Ec, Es.
    + left. exists c, (o * s)%float, EmptyString. split; [exact Hc |].
      split; [reflexivity |]. intros t rest Ht.
      cbn [append operand_loop]. now rewrite Ec.
  - destruct (plain_cons _ _ Hpre) as (Hc1 & Hpre1).
    destruct (is_digit c || (c =? ".")) eqn:Ec.
    + destruct (operand_step pow c h e o) as [[[h' e'] o'] |] eqn:Es.
      * destruct (IH c1 h' e' o' s Hpre1 Hc1)
          as [(c' & v & pre2 & Hc' & Hpre2 & Hrun) | (v & Hrun)].
        -- left. exists c', v, pre2. split; [exact Hc' |]. split; [exact Hpre2 |].
           intros t rest Ht. cbn [append operand_loop]. rewrite Ec, Es.
           exact (Hrun t rest Ht).
        -- right. exists v. intros t rest Ht. cbn [append operand_loop].
           rewrite Ec, Es. exact (Hrun t rest Ht).
      * left. exists "s", o, (String c1 pre1). split; [reflexivity |].
        split; [exact Hpre |]. intros t rest Ht.
        cbn [append operand_loop]. now rewrite Ec, Es.
    + left. exists c, (o * s)%float, (String c1 pre1). split; [exact Hc |].
      split; [exact Hpre |]. intros t rest Ht.
      cbn [append operand_loop]. now rewrite Ec.
Qed.

Lemma skip_blanks_scan (pre : string) :
  forall c (v : double),
    plain pre = true -> plain_char c = true ->
    (exists c' pre1,
       scan_inside (fun inp => let (c', inp') := skip_blanks inp c in (c', v, inp'))
         pre c' v pre1)
    \/ scan_through (fun inp => let (c', inp') := skip_blanks inp c in (c', v, inp'))
         pre v.
Proof.
  induction pre as [| c1 pre1 IH]; intros c v Hpre Hc.
  - destruct ((c =? " ") || (c =? tab)) eqn:Ec.
    + right. intros t rest Ht. cbn [append skip_blanks]. rewrite Ec.
      now rewrite (skip_blanks_other _ _ (terminator_not_blank t Ht)).
    + left. exists c, EmptyString. split; [exact Hc |]. split; [reflexivity |].
      intros t rest Ht. cbn [append skip_blanks]. now rewrite Ec.
  - destruct (plain_cons _ _ Hpre) as (Hc1 & Hpre1).
    destruct ((c =? " ") || (c =? tab)) eqn:Ec.
    + destruct (IH c1 v Hpre1 Hc1) as [(c' & pre2 & Hc' & Hpre2 & Hrun) | Hrun].
      * left. exists c', pre2. split; [exact Hc' |]. split; [exact Hpre2 |].
        intros t rest Ht. cbn [append skip_blanks]. rewrite Ec.
        exact (Hrun t rest Ht).
      * right. intros t rest Ht. cbn [append skip_blanks]. rewrite Ec.
        exact (Hrun t rest Ht).
    + left. exists c, (String c1 pre1). split; [exact Hc |]. split; [exact Hpre |].
      intros t rest Ht. cbn [append skip_blanks]. now rewrite Ec.
Qed.

Lemma parse_operand_scan (c0 : ascii) (pre0 : string) :
  plain_char c0 = true -> plain pre0 = true ->
  (exists c' v pre1, scan_inside (parse_operand pow c0) pre0 c' v pre1)
  \/ (exists v, scan_through (parse_operand pow c0) pre0 v).
Proof.
  intros Hc0 Hpre0.
  assert (Hscan : forall sign operand h,
            (exists c' v pre1,
               scan_inside (fun inp => let (c, inp) := getchar inp in
                                       operand_loop pow inp c h 0 operand sign)
                 pre0 c' v pre1)
            \/ (exists v,
                  scan_through (fun inp => let (c, inp) := getchar inp in
                                           operand_loop pow inp c h 0 operand sign)
                    pre0 v)).
  { intros sign operand h. destruct pre0 as [| c pre1].
    - right. exists (operand * sign)%float. intros t rest Ht.
      cbn [append getchar].
      now rewrite (operand_loop_stop pow _ _ _ _ _ _ (terminator_not_operand t Ht)).
    - destruct (plain_cons _ _ Hpre0) as (Hc & Hpre1).
      destruct (operand_loop_scan pre1 c h 0 operand sign Hpre1 Hc)
        as [(c' & v & pre2 & Hc' & Hpre2 & Hrun) | (v & Hrun)].
      + left. exists c', v, pre2. split; [exact Hc' |]. split; [exact Hpre2 |].
        intros t rest Ht. cbn [append getchar]. exact (Hrun t rest Ht).
      + right. exists v. intros t rest Ht. cbn [append getchar].
        exact (Hrun t rest Ht). }
  destruct (plain_char_not_open c0 Hc0) as (_ & Eo & _).
  unfold scan_inside, scan_through, parse_operand.
  destruct (c0 =? "-"); [apply Hscan |].
  destruct (c0 =? "+"); [apply Hscan |].
  destruct (is_digit c0); [apply Hscan |].
  destruct (c0 =? "."); [apply Hscan |].
  destruct ((c0 =? "*") || (c0 =? "/")).
  { left. exists "s", 0%float, pre0. repeat split; auto. }
  rewrite Eo. left. exists c0, 0%float, pre0. repeat split; auto.
Qed.

(** The [switch] of [parse_expr] on a terminator. *)
Lemma terminator_dispatch (t : ascii) :
  is_terminator t = true ->
  is_arith_op t = false /\ (t =? "s") = false /\ (t =? "(") = false
  /\ (t =? "o") = false
  /\ (if t =? ")" then "c" else if t =? newline then "n" else "s")
     = terminator_status t.
Proof.
  intros H. destruct (is_terminator_cases t H) as [-> | ->]; repeat split.
Qed.

Lemma parse_expr_loop_pass (room : nat) :
  forall w pre,
    plain pre = true ->
    (exists st w' pre1, pass_inside (parse_expr_loop pow room w) pre st w' pre1)
    \/ (exists w', pass_through (parse_expr_loop pow room w) pre w').
Proof.
  induction room as [| room IH]; intros w pre Hpre.
  - left. exists ">", w, pre. split; [now left |]. split; [exact Hpre |].
    reflexivity.
  - destruct pre as [| c0 pre0].
    + right. exists (set_operand w (window_at w) 0%float). intros t rest Ht.
      cbn [append]. destruct (is_terminator_cases t Ht) as [-> | ->].
      * apply parse_expr_loop_close_first.
      * apply parse_expr_loop_end_first.
    + destruct (plain_cons _ _ Hpre) as (Hc0 & Hpre0).
      destruct (parse_operand_scan c0 pre0 Hc0 Hpre0)
        as [(c1 & v & pre1 & Hc1 & Hpre1 & Hrun1) | (v & Hrun1)].
      * (* the operand ends inside the text *)
        destruct (c1 =? "s") eqn:Es.
        { left. exists "s", (set_operand w (window_at w) v), pre1.
          split; [now right; right |]. split; [exact Hpre1 |].
          intros t rest Ht. cbn [append parse_expr_loop getchar].
          rewrite (Hrun1 t rest Ht), Es. reflexivity. }
        destruct (skip_blanks_scan pre1 c1 v Hpre1 Hc1)
          as [(c2 & pre2 & Hc2 & Hpre2 & Hrun2) | Hrun2].
        -- destruct (plain_char_not_open c2 Hc2) as (En & Eo & Eoo).
           destruct (is_arith_op c2) eqn:Ea.
           ++ destruct (IH (set_window_at
                              (set_operator (set_operand w (window_at w) v)
                                 (window_at w) c2) (window_at w + 1)) pre2 Hpre2)
                as [(st & w' & pre3 & Hst & Hpre3 & Hrun3) | (w' & Hrun3)].
              ** left. exists st, w', pre3. split; [exact Hst |].
                 split; [exact Hpre3 |]. intros t rest Ht.
                 cbn [append parse_expr_loop getchar].
                 rewrite (Hrun1 t rest Ht), Es.
                 pose proof (Hrun2 t rest Ht) as R2. cbv beta in R2.
                 destruct (skip_blanks (pre1 ++ String t rest) c1) as [c2' inp2].
                 inversion R2; subst. rewrite Ea.
                 exact (Hrun3 t rest Ht).
              ** right. exists w'. intros t rest Ht.
                 cbn [append parse_expr_loop getchar].
                 rewrite (Hrun1 t rest Ht), Es.
                 pose proof (Hrun2 t rest Ht) as R2. cbv beta in R2.
                 destruct (skip_blanks (pre1 ++ String t rest) c1) as [c2' inp2].
                 inversion R2; subst. rewrite Ea.
                 exact (Hrun3 t rest Ht).
           ++ left.
              exists (if c2 =? ")" then "c" else "s"),
                (set_operand w (window_at w) v), pre2.
              split; [destruct (c2 =? ")"); auto |]. split; [exact Hpre2 |].
              intros t rest Ht. cbn [append parse_expr_loop getchar].
              rewrite (Hrun1 t rest Ht), Es.
              pose proof (Hrun2 t rest Ht) as R2. cbv beta in R2.
              destruct (skip_blanks (pre1 ++ String t rest) c1) as [c2' inp2].
              inversion R2; subst. rewrite Ea, Eo, Eoo, En.
              destruct (c2 =? ")"); reflexivity.
        -- right. exists (set_operand w (window_at w) v). intros t rest Ht.
           cbn [append parse_expr_loop getchar].
           rewrite (Hrun1 t rest Ht), Es.
           pose proof (Hrun2 t rest Ht) as R2. cbv beta in R2.
           destruct (skip_blanks (pre1 ++ String t rest) c1) as [c2' inp2].
           inversion R2; subst.
           destruct (terminator_dispatch t Ht) as (Ea & _ & Eo & Eoo & Ed).
           rewrite Ea, Eo, Eoo.
           destruct (t =? ")"); [now inversion Ed |].
           destruct (t =? newline); now inversion Ed.
      * (* the operand runs up to the terminator *)
        right. exists (set_operand w (window_at w) v). intros t rest Ht.
        cbn [append parse_expr_loop getchar].
        rewrite (Hrun1 t rest Ht).
        destruct (terminator_dispatch t Ht) as (Ea & Es & Eo & Eoo & Ed).
        rewrite Es, (skip_blanks_other _ _ (terminator_not_blank t Ht)).
        rewrite Ea, Eo, Eoo.
        destruct (t =? ")"); [now inversion Ed |].
        destruct (t =? newline); now inversion Ed.
Qed.

(** An evaluation of text without groups: it runs out of fuel, or ends
    inside the text, or ends at the terminator; and which of the three does
    not depend on the terminator nor on what follows it. *)
Lemma calculate_loop_eval (fuel : nat) :
  forall w pre,
    plain pre = true ->
    (forall t rest, is_terminator t = true ->
       calculate_loop pow fuel w (pre ++ String t rest) = None)
    \/ (exists v st pre1, eval_inside (calculate_loop pow fuel w) pre v st pre1)
    \/ (exists v, eval_through (calculate_loop pow fuel w) pre v).
Proof.
  induction fuel as [| fuel IH]; intros w pre Hpre; [now left |].
  destruct (parse_expr_loop_pass (3 - window_at w) w pre Hpre)
    as [(st & w' & pre1 & Hst & Hpre1 & Hrun) | (w' & Hrun)].
  - destruct Hst as [-> | [-> | ->]].
    + destruct (IH (compute pow w') pre1 Hpre1)
        as [Hn | [(v & st & pre2 & Hst & Hpre2 & Hr) | (v & Hr)]].
      * left. intros t rest Ht.
        rewrite (calculate_loop_compute pow fuel w w' _ _ (Hrun t rest Ht)).
        exact (Hn t rest Ht).
      * right; left. exists v, st, pre2. split; [exact Hst |].
        split; [exact Hpre2 |]. intros t rest Ht.
        rewrite (calculate_loop_compute pow fuel w w' _ _ (Hrun t rest Ht)).
        exact (Hr t rest Ht).
      * right; right. exists v. intros t rest Ht.
        rewrite (calculate_loop_compute pow fuel w w' _ _ (Hrun t rest Ht)).
        exact (Hr t rest Ht).
    + right; left. exists (get (operands (compute pow w')) 0), "c", pre1.
      split; [now left |]. split; [exact Hpre1 |]. intros t rest Ht.
      apply calculate_loop_finish; [exact (Hrun t rest Ht) | now right].
    + right; left. exists (get (operands w') 0), "s", pre1.
      split; [now right |]. split; [exact Hpre1 |]. intros t rest Ht.
      apply calculate_loop_error. exact (Hrun t rest Ht).
  - right; right. exists (get (operands (compute pow w')) 0). intros t rest Ht.
    apply calculate_loop_finish; [exact (Hrun t rest Ht) |].
    destruct (is_terminator_cases t Ht) as [-> | ->]; [now right | now left].
Qed.

End Terminators.

(** ** Syntax errors *)

Section Errors.

Variable pow : double -> double -> double.

(** A second point after the digits of a fractional part. *)
Lemma operand_loop_frac_second_point (fs : list ascii) (acc sign : double)
    (rest : string) :
  all_digits fs -> (List.length fs <= 127)%nat ->
  (let (c, inp) := getchar (string_of_list_ascii fs ++ String "." rest) in
   operand_loop pow inp c true 0 acc sign)
  = ("s", frac_acc pow 0 acc fs, rest).
Proof.
  intros Hd Hlen. destruct fs as [| d fs]; cbn [string_of_list_ascii append getchar].
  - now rewrite operand_loop_second_point.
  - rewrite operand_loop_frac; [| assumption | lia | cbn [List.length] in *; lia].
    now rewrite operand_loop_second_point.
Qed.

Lemma operand_loop_int_second_point (ds fs : list ascii) (acc sign : double)
    (rest : string) :
  all_digits ds -> all_digits fs -> (List.length fs <= 127)%nat ->
  (let (c, inp) :=
     getchar (string_of_list_ascii ds
              ++ String "." (string_of_list_ascii fs) ++ String "." rest) in
   operand_loop pow inp c false 0 acc sign)
  = ("s", frac_acc pow 0 (int_acc acc ds) fs, rest).
Proof.
  intros Hds Hfs Hlen.
  pose proof (operand_loop_frac_second_point fs (int_acc acc ds) sign rest Hfs Hlen)
    as Hp.
  destruct ds as [| d ds]; cbn [string_of_list_ascii append getchar].
  - cbn [int_acc fold_left] in *. rewrite <- Hp. destruct fs; reflexivity.
  - rewrite operand_loop_int by assumption. rewrite <- Hp. destruct fs; reflexivity.
Qed.

(** The lexer on a literal with a fractional part and a further point. *)
Lemma parse_operand_second_point (s : sign_mark) (ds fs : list ascii)
    (rest : string) :
  all_digits ds -> all_digits fs -> (List.length fs <= 127)%nat ->
  exists c0 l',
    literal_text (Literal s ds (Some fs)) = String c0 l'
    /\ parse_operand pow c0 (l' ++ String "." rest)
       = ("s", frac_acc pow 0 (int_acc 0%float ds) fs, rest).
Proof.
  intros Hds Hfs Hlen. unfold literal_text. cbn [lit_sign lit_int lit_frac frac_text].
  destruct s; cbn [sign_text append].
  - destruct ds as [| d ds].
    + cbn [string_of_list_ascii append int_acc fold_left].
      eexists _, _; split; [reflexivity |].
      unfold parse_operand. cbn [Ascii.eqb Bool.eqb is_digit Ascii.leb Ascii.compare
        N_of_ascii N_of_digits N.compare N.add N.mul Pos.compare Pos.compare_cont
        Pos.add Pos.mul Pos.succ andb orb].
      now apply operand_loop_frac_second_point.
    + inversion Hds as [| ? ? Hd Hds']; subst.
      cbn [string_of_list_ascii append].
      eexists _, _; split; [reflexivity |].
      unfold parse_operand.
      destruct (digit_not_special d Hd) as (E1 & E2 & _). rewrite E1, E2, Hd.
      rewrite ?append_assoc; cbn [append]; rewrite ?append_assoc; cbn [append].
      rewrite (operand_loop_int_second_point ds fs _ _ rest Hds' Hfs Hlen).
      cbn [int_acc fold_left]. now rewrite first_digit.
  - eexists _, _; split; [reflexivity |].
    unfold parse_operand. cbn [Ascii.eqb Bool.eqb].
    rewrite ?append_assoc; cbn [append]; rewrite ?append_assoc; cbn [append].
    now rewrite (operand_loop_int_second_point ds fs _ _ rest Hds Hfs Hlen).
  - eexists _, _; split; [reflexivity |].
    unfold parse_operand. cbn [Ascii.eqb Bool.eqb].
    rewrite ?append_assoc; cbn [append]; rewrite ?append_assoc; cbn [append].
    now rewrite (operand_loop_int_second_point ds fs _ _ rest Hds Hfs Hlen).
Qed.

End Errors.

(** ** The indices [calculate] stores through *)

Section Store_facts.

Variable pow : double -> double -> double.

Lemma calculate_loop_stores_erase (fuel : nat) :
  forall w inp,
    calculate_loop pow fuel w inp
    = option_map fst (calculate_loop_stores pow fuel w inp).
Proof.
  induction fuel as [| fuel IH]; intros w inp; [reflexivity |].
  cbn [calculate_loop calculate_loop_stores].
  destruct (parse_expr pow w inp) as [[status w1] inp1].
  rewrite !IH.
  destruct (status =? ">"); [reflexivity |].
  destruct ((status =? "n") || (status =? "c")); [reflexivity |].
  destruct (status =? "o").
  - destruct (contains_nest_op (operators w1));
      [destruct (window_at (set_operator w1 (window_at w1) "*") <? 2)%nat |];
      (destruct (calculate_loop_stores pow fuel init_window inp1)
         as [[[[v st] inp2] log] |]; [| reflexivity]);
      cbn [option_map fst]; rewrite !IH;
      destruct (st =? newline); try reflexivity;
      destruct (st =? "s"); try reflexivity;
      match goal with
      | |- context [calculate_loop_stores pow fuel ?w ?i] =>
          destruct (calculate_loop_stores pow fuel w i) as [[r' log'] |]; reflexivity
      end.
  - destruct (status =? "s"); reflexivity.
Qed.

Lemma calculate_loop_stores_bound (fuel : nat) :
  forall w inp r log,
    window_at w <= 2 -> ops_arith w ->
    calculate_loop_stores pow fuel w inp = Some (r, log) ->
    Forall (fun i => i <= 2) log.
Proof.
  induction fuel as [| fuel IH]; intros w inp r log Hat Hw H; [discriminate |].
  cbn [calculate_loop_stores] in H.
  pose proof (parse_expr_lexed pow w inp Hw Hat) as HL.
  destruct (parse_expr pow w inp) as [[status w1] inp1].
  destruct HL as (_ & _ & _ & L4 & L5 & S0 & S1 & S2).
  assert (Hdone : forall (w2 : window) (st : ascii) (inp2 : string) (lg : list nat),
            ops_arith w2 -> Forall (fun i => i <= 2) lg ->
            (let w := compute pow w2 in
             if st =? newline then Some ((get (operands w) 0, st, inp2), lg)
             else if st =? "s" then Some ((get (operands w) 0, st, inp2), lg)
             else match calculate_loop_stores pow fuel w inp2 with
                  | None => None
                  | Some (r, log') => Some (r, (lg ++ log')%list)
                  end) = Some (r, log) ->
            Forall (fun i => i <= 2) log).
  { intros w2 st inp2 lg Hw2 Hlg Hr. cbv zeta in Hr.
    destruct (st =? newline); [inversion Hr; subst; exact Hlg |].
    destruct (st =? "s"); [inversion Hr; subst; exact Hlg |].
    destruct (calculate_loop_stores pow fuel (compute pow w2) inp2)
      as [[r' log'] |] eqn:E; [| discriminate].
    inversion Hr; subst. apply Forall_app. split; [exact Hlg |].
    apply (IH _ _ _ _ (collapsed_at _ (compute_collapsed pow w2 (proj2 (proj2 Hw2))))
              (compute_ops_arith pow w2 Hw2) E). }
  destruct L4 as [-> | [-> | [-> | [-> | ->]]]];
    cbn [Ascii.eqb Bool.eqb orb newline] in H.
  - (* '>' *)
    assert (Hw1 : ops_arith w1).
    { destruct S0 as [S0 | (? & _)]; [| discriminate].
      destruct S1 as [S1 | (? & _)]; [| discriminate].
      destruct S2 as [S2 | (? & _)]; [| discriminate]. repeat split; assumption. }
    apply (IH _ _ _ _ (collapsed_at _ (compute_collapsed pow w1 (proj2 (proj2 Hw1))))
              (compute_ops_arith pow w1 Hw1) H).
  - (* 'o' *)
    specialize (L5 ltac:(discriminate)).
    pose proof (lexed_star _ _ L5 S0 S1 S2) as Hstar.
    destruct (calculate_loop_stores pow fuel init_window inp1)
      as [[[[v st] inp2] lg] |] eqn:EN.
    2:{ destruct (contains_nest_op (operators w1));
          [destruct (window_at (set_operator w1 (window_at w1) "*") <? 2)%nat |];
          discriminate. }
    assert (Hlg : Forall (fun i => i <= 2) lg)
      by (apply (IH init_window inp1 (v, st, inp2) lg);
          [cbn; lia | exact init_window_arith | exact EN]).
    destruct (contains_nest_op (operators w1)) eqn:Hn;
      [destruct (window_at (set_operator w1 (window_at w1) "*") <? 2)%nat eqn:Hlt |].
    + apply (Hdone _ _ _ _ (set_operand_arith _ _ _ Hstar)) in H; [exact H |].
      constructor; [exact L5 |]. apply Forall_app. split; [exact Hlg |].
      constructor; [| constructor]. apply Nat.ltb_lt in Hlt. lia.
    + apply (Hdone _ _ _ _ (set_operand_arith _ _ _ (compute_ops_arith pow _ Hstar)))
        in H; [exact H |].
      constructor; [exact L5 |]. apply Forall_app. split; [exact Hlg |].
      constructor; [| constructor].
      apply collapsed_at, compute_collapsed, Hstar.
    + apply (Hdone _ _ _ _ (set_operand_arith _ _ _
                              (lexed_plain _ _ L5 S0 S1 S2 (or_intror Hn)))) in H;
        [exact H |].
      apply Forall_app. split; [exact Hlg |]. constructor; [exact L5 | constructor].
  - inversion H; subst. constructor.
  - inversion H; subst. constructor.
  - inversion H; subst. constructor.
Qed.

End Store_facts.

(** ** What a pass of [parse_expr] changes *)

Section Frame.

Variable pow : double -> double -> double.

Lemma get_put_below {A : Type} (a : array3 A) (i j : nat) (v : A) :
  i < j -> j <= 2 -> get (put a j v) i = get a i.
Proof.
  intros Hij Hj. destruct j as [| [| [| j]]]; [lia | | | lia];
    destruct i as [| [| i]]; try lia; reflexivity.
Qed.

Lemma below_refl (n : nat) (w : window) : below n w w.
Proof. intros i _. split; reflexivity. Qed.

Lemma below_trans (n m : nat) (w w1 w2 : window) :
  n <= m -> below n w w1 -> below m w1 w2 -> below n w w2.
Proof.
  intros Hnm H1 H2 i Hi. destruct (H1 i Hi) as (A1 & B1).
  destruct (H2 i ltac:(lia)) as (A2 & B2). split; congruence.
Qed.

Lemma below_store (w : window) (v : double) (c : ascii) (n : nat) :
  window_at w <= 2 ->
  below (window_at w) w
    (set_window_at (set_operator (set_operand w (window_at w) v) (window_at w) c) n).
Proof.
  intros Hat i Hi. cbn [set_window_at set_operator set_operand operands operators].
  split; now apply get_put_below.
Qed.

Lemma parse_expr_loop_frame (room : nat) :
  forall w inp st w' rest,
    window_at w + room = 3 ->
    parse_expr_loop pow room w inp = (st, w', rest) ->
    window_at w <= window_at w' <= 3
    /\ (st = ">" <-> window_at w' = 3)
    /\ below (window_at w) w w'.
Proof.
  induction room as [| room IH]; intros w inp st w' rest Hroom H.
  - cbn in H. inversion H; subst.
    split; [lia |]. split; [split; [intros _; lia | reflexivity] | apply below_refl].
  - assert (Hat : window_at w <= 2) by lia.
    cbn [parse_expr_loop] in H.
    destruct (getchar inp) as [c0 inp0].
    destruct (parse_operand pow c0 inp0) as [[c1 v] inp1].
    assert (Hop : below (window_at w) w (set_operand w (window_at w) v)).
    { intros i Hi. cbn [set_operand operands operators].
      split; [now apply get_put_below | reflexivity]. }
    assert (Hstop : forall st0 w0 rest0,
              (st0, w0, rest0) = (st, w', rest) ->
              st0 <> ">" -> window_at w0 = window_at w -> below (window_at w) w w0 ->
              window_at w <= window_at w' <= 3
              /\ (st = ">" <-> window_at w' = 3)
              /\ below (window_at w) w w').
    { intros st0 w0 rest0 E Hst Hw0 Hb. inversion E; subst.
      split; [lia |]. split; [split; [contradiction | lia] | exact Hb]. }
    destruct (c1 =? "s").
    { apply (Hstop _ _ _ H); [discriminate | reflexivity | exact Hop]. }
    destruct (skip_blanks inp1 c1) as [c2 inp2].
    destruct (is_arith_op c2).
    { apply IH in H; [| cbn; lia].
      destruct H as (Hle & Hst & Hb).
      cbn in Hle, Hb.
      split; [lia |]. split; [exact Hst |].
      apply (below_trans (window_at w) (window_at w + 1) w
               (set_window_at
                  (set_operator (set_operand w (window_at w) v) (window_at w) c2)
                  (window_at w + 1)) w');
        [lia | exact (below_store w v c2 (window_at w + 1) Hat) | exact Hb]. }
    destruct (c2 =? "(").
    { apply (Hstop _ _ _ H); [discriminate | reflexivity |].
      exact (below_store w v "(" (window_at w) Hat). }
    destruct (c2 =? "o");
      [apply (Hstop _ _ _ H); [discriminate | reflexivity | exact Hop] |].
    destruct (c2 =? ")");
      [apply (Hstop _ _ _ H); [discriminate | reflexivity | exact Hop] |].
    destruct (c2 =? newline);
      apply (Hstop _ _ _ H); (discriminate || reflexivity || exact Hop).
Qed.

End Frame.

(** * Further properties *)

(** The stand-in gives a non-zero number for every power of ten the digit
    counter can ask for. *)
Lemma pow_model_tens (k : Z) :
  (-128 <= k <= 127)%Z -> (0 / PowModel.pow 10 (double_of_int k) = 0)%float.
Proof.
  intros Hk.
  assert (Hall : forallb (fun i : nat =>
            PrimFloat.Leibniz.eqb
              (0 / PowModel.pow 10 (double_of_int (Z.of_nat i - 128)))%float 0%float)
          (seq 0 256) = true) by (vm_compute; reflexivity).
  rewrite forallb_forall in Hall.
  specialize (Hall (Z.to_nat (k + 128))).
  replace (Z.of_nat (Z.to_nat (k + 128)) - 128)%Z with k in Hall by lia.
  apply FloatAxioms.Leibniz.eqb_spec. apply Hall. apply in_seq. lia.
Qed.

(** A literal on a line of its own evaluates to the number it denotes. *)
Theorem literal_evaluates (pow : double -> double -> double) (l : literal) :
  literal_ok l ->
  exists r,
    calculate pow (literal_text l ++ LF) = Some (r, END, EmptyString)
    /\ same_number r (literal_value pow l).
Proof.
  intros Hl. exists (literal_value pow l + 0)%float.
  split; [| apply FloatFacts.add_zero_same].
  rewrite (calculate_one pow _ _ (literal_lexes pow l Hl)).
  now rewrite FloatFacts.add_zero_idem.
Qed.

Lemma literal_evaluates_witness :
  exists r,
    run ("-12.5" ++ LF) = Some (r, END, EmptyString)
    /\ same_number r (-12.5)%float.
Proof.
  refine (literal_evaluates PowModel.pow (Literal MinusSign ["1"; "2"] (Some ["5"])) _).
  unfold literal_ok, all_digits. cbn.
  split; [repeat constructor | split; [repeat constructor | split; [left; discriminate | lia]]].
Defined.

Lemma precedence_between_classes_witness :
  run ("1+2*3" ++ LF) = Some (7%float, END, EmptyString)
  /\ run ("1*2+3" ++ LF) = Some (5%float, END, EmptyString).
Proof.
  exact (precedence_between_classes PowModel.pow "1" "2" "3" 1%float 2%float 3%float
           ltac:(lexes) ltac:(lexes) ltac:(lexes)).
Defined.

(** Blanks before an operator change nothing: an instance of the pass. *)
Lemma parse_expr_loop_blanks_witness :
  parse_expr_loop PowModel.pow 3 init_window ("1" ++ "  " ++ "+2" ++ LF)
  = parse_expr_loop PowModel.pow 3 init_window ("1" ++ "+2" ++ LF).
Proof.
  exact (parse_expr_loop_blanks PowModel.pow 2 init_window "1" 1%float "  " "+"
           ("2" ++ LF) ltac:(lexes) eq_refl eq_refl eq_refl).
Defined.

(** The boundary literals of the specification, for every [pow] that is
    exact on the first power of ten. *)
Lemma operand_boundary_cases (pow : double -> double -> double) :
  pow 10%float 1%float = 10%float ->
  calculate pow (".5" ++ LF) = Some (0.5%float, END, EmptyString)
  /\ calculate pow ("-.5" ++ LF) = Some ((-0.5)%float, END, EmptyString)
  /\ calculate pow ("+3" ++ LF) = Some (3%float, END, EmptyString)
  /\ calculate pow LF = Some (0%float, END, EmptyString).
Proof.
  intros H. repeat split; vm_compute; rewrite ?H; reflexivity.
Qed.

Lemma operand_boundary_cases_witness :
  run (".5" ++ LF) = Some (0.5%float, END, EmptyString)
  /\ run ("-.5" ++ LF) = Some ((-0.5)%float, END, EmptyString)
  /\ run ("+3" ++ LF) = Some (3%float, END, EmptyString)
  /\ run LF = Some (0%float, END, EmptyString).
Proof. exact (operand_boundary_cases PowModel.pow eq_refl). Defined.

(** The three malformed inputs the specification names end with the
    syntax-error status, the rest of the line unread. *)
Lemma named_malformations_rejected (pow : double -> double -> double) :
  calculate pow ("3 + * 4" ++ LF) = Some (3%float, SYNTAX_ERROR, LF)
  /\ calculate pow ("1.2.3" ++ LF)
     = Some ((1 + 2 / pow 10 1)%float, SYNTAX_ERROR, "3" ++ LF)
  /\ calculate pow ("3 @ 4" ++ LF) = Some (3%float, SYNTAX_ERROR, " 4" ++ LF).
Proof. repeat split; vm_compute; reflexivity. Qed.

(** An instance of the equivalence at the start of an input. *)
Lemma implicit_as_explicit_witness :
  evaluates PowModel.pow init_window ("2" ++ "(" ++ "3)" ++ LF)
    (6%float, END, EmptyString)
  <-> evaluates PowModel.pow init_window ("2" ++ "*(" ++ "3)" ++ LF)
        (6%float, END, EmptyString).
Proof.
  exact (implicit_as_explicit PowModel.pow init_window "2" 2%float ("3)" ++ LF)
           (6%float, END, EmptyString) ltac:(lexes)
           (conj eq_refl (conj eq_refl eq_refl)) (le_S _ _ (le_S _ _ (le_n 0)))).
Defined.

(** A fourth operand meets a window that still holds the operand and the
    operator the collapse has consumed: after [a+b*c] is reduced into slot 0,
    the shift of mode 2 copies [c] and [*] down, and the next collapse
    multiplies by [c] again. *)
Theorem consumed_operand_reused (pow : double -> double -> double)
    (la lb lc ld : string) (a b c d : double) :
  lexes_as pow la a -> lexes_as pow lb b -> lexes_as pow lc c ->
  lexes_as pow ld d ->
  calculate pow (la ++ "+" ++ lb ++ "*" ++ lc ++ "+" ++ ld ++ LF)
  = Some (((a + b * c) * c + d)%float, END, EmptyString).
Proof.
  intros Ha Hb Hc Hd. unfold calculate.
  pose proof Ha as (c0 & l' & Hla & _). cbn [append].
  assert (Hfuel : exists n,
             String.length (la ++ String "+" (lb ++ String "*"
                              (lc ++ String "+" (ld ++ LF)))) = S n)
    by (subst la; cbn [append String.length]; eexists; reflexivity).
  destruct Hfuel as (n & ->).
  rewrite (calculate_loop_compute pow (S n) init_window
             (Window (Array3 a b c) (Array3 "+" "*" "+") 3) _ (ld ++ LF)).
  - apply calculate_loop_finish with
      (w1 := Window (Array3 (a + b * c)%float c d) (Array3 "*" "+" "+") 2);
      [| now left].
    unfold parse_expr, LF, str.
    change (compute pow (Window (Array3 a b c) (Array3 "+" "*" "+") 3))
      with (Window (Array3 (a + b * c)%float c 0%float) (Array3 "*" "+" "+") 2).
    cbn [window_at Nat.sub].
    now rewrite (parse_expr_loop_end pow _ _ _ _ _ Hd).
  - unfold parse_expr. cbn [init_window window_at Nat.sub].
    rewrite (parse_expr_loop_operator pow _ _ _ _ "+" _ Ha eq_refl).
    rewrite (parse_expr_loop_operator pow _ _ _ _ "*" _ Hb eq_refl).
    rewrite (parse_expr_loop_operator pow _ _ _ _ "+" _ Hc eq_refl).
    reflexivity.
Qed.

Lemma consumed_operand_reused_witness :
  run ("1" ++ "+" ++ "2" ++ "*" ++ "3" ++ "+" ++ "4" ++ LF)
  = Some (((1 + 2 * 3) * 3 + 4)%float, END, EmptyString).
Proof.
  exact (consumed_operand_reused PowModel.pow "1" "2" "3" "4"
           1%float 2%float 3%float 4%float
           ltac:(lexes) ltac:(lexes) ltac:(lexes) ltac:(lexes)).
Defined.

(** Expressions of two and of three operands, for every pair of operators:
    the value is that of the conventional reading, powers above products and
    quotients above sums and differences, operators of one class from left to
    right, two powers from right to left.  With two operands the empty third
    slot of the window is added to the result. *)
Theorem short_expression_value (pow : double -> double -> double)
    (la lb lc : string) (a b c : double) (p0 p1 : ascii) :
  lexes_as pow la a -> lexes_as pow lb b -> lexes_as pow lc c ->
  is_arith_op p0 = true -> is_arith_op p1 = true ->
  calculate pow (la ++ String p0 (lb ++ LF))
  = Some ((binary pow p0 a b + 0)%float, END, EmptyString)
  /\ calculate pow (la ++ String p0 (lb ++ String p1 (lc ++ LF)))
     = Some (value3 pow p0 p1 a b c, END, EmptyString).
Proof.
  intros Ha Hb Hc H0 H1. split.
  - rewrite (calculate_two pow _ _ _ _ _ Ha Hb H0).
    now rewrite (compute_two_last pow a b p0 1 H0).
  - rewrite (calculate_three pow _ _ _ _ _ _ _ _ Ha Hb Hc H0 H1).
    now rewrite (compute_three_last pow a b c p0 p1 2 H0 H1).
Qed.

Lemma short_expression_value_witness :
  run ("2" ++ String "^" ("3" ++ LF))
  = Some ((binary PowModel.pow "^" 2%float 3%float + 0)%float, END, EmptyString)
  /\ run ("2" ++ String "^" ("3" ++ String "*" ("4" ++ LF)))
     = Some (value3 PowModel.pow "^" "*" 2%float 3%float 4%float, END, EmptyString).
Proof.
  exact (short_expression_value PowModel.pow "2" "3" "4" 2%float 3%float 4%float
           "^" "*" ltac:(lexes) ltac:(lexes) ltac:(lexes) eq_refl eq_refl).
Defined.

(** A chain of any length whose operators are all sums and differences, or
    all products and quotients, evaluates from left to right: the result is
    the value of the operators applied one after the other (when the line
    ends on a half-filled window, the empty slot is added to it). *)
Theorem one_class_chain (pow : double -> double -> double)
    (l0 : string) (a0 : double) (items : list term) :
  lexes_as pow l0 a0 -> Forall (term_lexes pow) items -> one_class items ->
  exists r,
    calculate pow (l0 ++ chain_text items LF) = Some (r, END, EmptyString)
    /\ same_number r (chain_value pow a0 items).
Proof.
  intros Hl0 Hlex Hcls.
  assert (H : exists cls, chain_class cls /\ chain_ok pow cls items).
  { destruct Hcls as [Hc | Hc]; [exists is_additive | exists is_multiplicative];
      (split; [unfold chain_class; auto |]);
      unfold chain_ok; rewrite Forall_forall in *; auto. }
  destruct H as (cls & Hclass & Hok).
  destruct (chain_from_start pow cls Hclass l0 a0 items Hl0 Hok) as (r & Hr & Hv).
  exists r. split; [now apply evaluates_calculate |].
  destruct Hv as [-> | ->]; [now left | apply FloatFacts.add_zero_same].
Qed.

Lemma one_class_chain_witness :
  exists r,
    run ("10" ++ chain_text [("-", "1"%string, 1%float); ("-", "2"%string, 2%float);
                             ("+", "3"%string, 3%float); ("-", "4"%string, 4%float);
                             ("+", "5"%string, 5%float)] LF)
    = Some (r, END, EmptyString)
    /\ same_number r
         (chain_value PowModel.pow 10%float
            [("-", "1"%string, 1%float); ("-", "2"%string, 2%float); ("+", "3"%string, 3%float);
             ("-", "4"%string, 4%float); ("+", "5"%string, 5%float)]).
Proof.
  apply (one_class_chain PowModel.pow "10" 10%float).
  - lexes.
  - repeat constructor; unfold term_lexes; cbn [fst snd]; lexes.
  - left. repeat constructor.
Defined.

(** A group that is a whole expression: when the evaluation of [inp] stops
    at a closing parenthesis with the value [v], and a closing parenthesis or
    the line end follows, the evaluation of [inp] behind an opening
    parenthesis stops after that character, with its status, and returns [v]
    (with the empty slots of the window added). *)
Theorem group_alone (pow : double -> double -> double) (inp : string) (v : double)
    (t : ascii) (rest : string) :
  calculate pow inp = Some (v, CLOSE, String t rest) ->
  is_terminator t = true ->
  calculate pow ("(" ++ inp) = Some ((v + 0)%float, terminator_status t, rest)
  /\ same_number (v + 0)%float v.
Proof.
  intros H Ht. split; [| apply FloatFacts.add_zero_same].
  apply evaluates_calculate. exists (S (S (String.length inp))).
  exact (calculate_loop_lone_group pow _ inp v t rest H Ht).
Qed.

Lemma group_alone_witness :
  run ("(" ++ "1+2*3)" ++ LF) = Some ((7 + 0)%float, END, EmptyString)
  /\ same_number (7 + 0)%float 7%float.
Proof.
  exact (group_alone PowModel.pow ("1+2*3)" ++ LF) 7%float newline EmptyString
           eq_refl eq_refl).
Defined.

(** Nesting of any depth: a literal inside [n] pairs of parentheses
    evaluates to the number of the literal, for every [n]. *)
Theorem nested_literal (pow : double -> double -> double) (l : string) (a : double)
    (n : nat) :
  lexes_as pow l a ->
  calculate pow (repeat_char n "(" ++ l ++ repeat_char n ")" ++ LF)
  = Some ((a + 0)%float, END, EmptyString)
  /\ same_number (a + 0)%float a.
Proof.
  intros Hl. split; [| apply FloatFacts.add_zero_same].
  apply evaluates_calculate.
  exact (literal_in_groups pow l a n Hl newline EmptyString eq_refl).
Qed.

Lemma nested_literal_witness :
  run (repeat_char 64 "(" ++ "3" ++ repeat_char 64 ")" ++ LF)
  = Some ((3 + 0)%float, END, EmptyString)
  /\ same_number (3 + 0)%float 3%float.
Proof. exact (nested_literal PowModel.pow "3" 3%float 64 ltac:(lexes)). Defined.

(** An operand, an operator and a group: when the evaluation of [inp] stops
    at a closing parenthesis with the value [v], and a closing parenthesis or
    the line end follows, [a op (inp] evaluates to [a op v], for each of the
    five operators. *)
Theorem operator_then_group (pow : double -> double -> double)
    (la : string) (a : double) (op : ascii) (inp : string) (v : double)
    (t : ascii) (rest : string) :
  lexes_as pow la a -> is_arith_op op = true ->
  calculate pow inp = Some (v, CLOSE, String t rest) ->
  is_terminator t = true ->
  calculate pow (la ++ String op ("(" ++ inp))
  = Some ((binary pow op a v + 0)%float, terminator_status t, rest)
  /\ same_number (binary pow op a v + 0)%float (binary pow op a v).
Proof.
  intros Ha Hop H Ht. split; [| apply FloatFacts.add_zero_same].
  apply evaluates_calculate. exists (S (S (String.length inp))).
  exact (calculate_loop_operator_group pow _ la a op inp v t rest Ha Hop H Ht).
Qed.

Lemma operator_then_group_witness :
  run ("2" ++ String "^" ("(" ++ "1+2)" ++ LF))
  = Some ((binary PowModel.pow "^" 2%float 3%float + 0)%float, END, EmptyString)
  /\ same_number (binary PowModel.pow "^" 2%float 3%float + 0)%float
       (binary PowModel.pow "^" 2%float 3%float).
Proof.
  exact (operator_then_group PowModel.pow "2" 2%float "^" ("1+2)" ++ LF) 3%float
           newline EmptyString ltac:(lexes) eq_refl eq_refl eq_refl).
Defined.

(** A syntax error inside a group is not lost: the evaluation that met the
    opening parenthesis, whatever its window holds, ends with the
    [SYNTAX_ERROR] status at the place where the group stopped. *)
Theorem group_error_propagates (pow : double -> double -> double)
    (inp : string) (v : double) (rest : string) :
  calculate pow inp = Some (v, SYNTAX_ERROR, rest) ->
  (forall w, ops_arith w -> window_at w <= 2 ->
     exists r, evaluates pow w ("(" ++ inp) (r, SYNTAX_ERROR, rest))
  /\ exists r, calculate pow ("(" ++ inp) = Some (r, SYNTAX_ERROR, rest).
Proof.
  intros H.
  assert (Hall : forall w, ops_arith w -> window_at w <= 2 ->
            exists r, evaluates pow w ("(" ++ inp) (r, SYNTAX_ERROR, rest)).
  { intros w Hw Hat.
    destruct (calculate_loop_group_error pow _ w inp v rest Hw Hat H) as (r & Hr).
    exists r. now exists (S (S (String.length inp))). }
  split; [exact Hall |].
  destruct (Hall init_window (init_window_arith) ltac:(cbn; lia)) as (r & Hr).
  exists r. now apply evaluates_calculate.
Qed.

Lemma group_error_propagates_witness :
  (forall w, ops_arith w -> window_at w <= 2 ->
     exists r, evaluates PowModel.pow w ("(" ++ "1..2)" ++ LF)
                 (r, SYNTAX_ERROR, "2)" ++ LF))
  /\ exists r, run ("(" ++ "1..2)" ++ LF) = Some (r, SYNTAX_ERROR, "2)" ++ LF).
Proof.
  exact (group_error_propagates PowModel.pow ("1..2)" ++ LF) 1%float
           ("2)" ++ LF) eq_refl).
Defined.

(** How every evaluation ends: [calculate] returns on every input, with one
    of three statuses, and what it leaves unread is a tail of its input.
    With [END] the last character it has read is a line end, with [CLOSE] a
    closing parenthesis; so an input that holds no line end never ends
    with [END], and the empty input ends with [SYNTAX_ERROR]. *)
Theorem calculate_outcome (pow : double -> double -> double) (inp : string) :
  exists v st rest,
    calculate pow inp = Some (v, st, rest)
    /\ ((st = END /\ exists pre, inp = pre ++ LF ++ rest)
        \/ (st = CLOSE /\ exists pre, inp = pre ++ ")" ++ rest)
        \/ (st = SYNTAX_ERROR /\ exists pre, inp = pre ++ rest)).
Proof.
  destruct (calculate_loop_total pow (S (String.length inp)) init_window inp)
    as ([[v st] rest] & E); [lia | cbn; lia | exact (init_window_arith) |].
  exists v, st, rest. split; [exact E |].
  exact (calculate_loop_stops pow _ _ _ _ _ _ E).
Qed.

(** One line at a time: on a line that holds no opening parenthesis and no
    letter [o], the evaluator never reads past the line end.  It stops right
    after that line end with [END], or before it with [CLOSE] or
    [SYNTAX_ERROR]. *)
Theorem line_not_overrun (pow : double -> double -> double) (pre rest : string) :
  plain pre = true ->
  exists v st rest',
    calculate pow (pre ++ LF ++ rest) = Some (v, st, rest')
    /\ ((st = END /\ rest' = rest)
        \/ ((st = CLOSE \/ st = SYNTAX_ERROR)
            /\ exists pre', plain pre' = true /\ rest' = pre' ++ LF ++ rest)).
Proof.
  intros Hpre. unfold calculate.
  change (pre ++ LF ++ rest) with (pre ++ String newline rest).
  set (fuel := S (String.length (pre ++ String newline rest))).
  destruct (calculate_loop_total pow fuel init_window (pre ++ String newline rest))
    as ([[v st] rest'] & E); [subst fuel; lia | cbn; lia | exact (init_window_arith) |].
  exists v, st, rest'. split; [exact E |].
  destruct (calculate_loop_eval pow fuel init_window pre Hpre)
    as [Hn | [(v1 & st1 & pre1 & Hst & Hpre1 & Hr) | (v1 & Hr)]].
  - rewrite (Hn newline rest eq_refl) in E. discriminate.
  - rewrite (Hr newline rest eq_refl) in E. inversion E; subst.
    right. split; [exact Hst | now exists pre1].
  - rewrite (Hr newline rest eq_refl) in E. inversion E; subst. now left.
Qed.

Lemma line_not_overrun_witness :
  exists v st rest',
    run ("1+2*3" ++ LF ++ "4+5" ++ LF) = Some (v, st, rest')
    /\ ((st = END /\ rest' = "4+5" ++ LF)
        \/ ((st = CLOSE \/ st = SYNTAX_ERROR)
            /\ exists pre', plain pre' = true /\ rest' = pre' ++ LF ++ "4+5" ++ LF)).
Proof.
  exact (line_not_overrun PowModel.pow "1+2*3" ("4+5" ++ LF) eq_refl).
Defined.

(** A second decimal point: after a literal that has a fractional part, a
    further point ends the evaluation at once with [SYNTAX_ERROR].  The
    point is the last character read, and the value returned is that of the
    digits read so far, the sign not applied. *)
Theorem second_point_rejected (pow : double -> double -> double)
    (s : sign_mark) (ds fs : list ascii) (rest : string) :
  all_digits ds -> all_digits fs -> (List.length fs <= 127)%nat ->
  calculate pow (literal_text (Literal s ds (Some fs)) ++ "." ++ rest)
  = Some (frac_acc pow 0 (int_acc 0%float ds) fs, SYNTAX_ERROR, rest).
Proof.
  intros Hds Hfs Hlen.
  destruct (parse_operand_second_point pow s ds fs rest Hds Hfs Hlen)
    as (c0 & l' & -> & HP).
  unfold calculate. apply calculate_loop_error with
    (w1 := set_operand init_window 0 (frac_acc pow 0 (int_acc 0%float ds) fs)).
  unfold parse_expr. cbn [init_window window_at Nat.sub append parse_expr_loop getchar].
  now rewrite HP.
Qed.

Lemma second_point_rejected_witness :
  run (literal_text (Literal MinusSign ["1"; "2"] (Some [])) ++ "." ++ "5" ++ LF)
  = Some (frac_acc PowModel.pow 0 (int_acc 0%float ["1"; "2"]) [],
          SYNTAX_ERROR, "5" ++ LF).
Proof.
  apply (second_point_rejected PowModel.pow MinusSign ["1"; "2"] [] ("5" ++ LF)).
  - repeat constructor.
  - constructor.
  - cbn; lia.
Defined.

(** A character the lexer has no case for, in the place of an operator,
    with or without blanks before it, ends the evaluation with
    [SYNTAX_ERROR]; the value returned is the operand before it. *)
Theorem unexpected_character_rejected (pow : double -> double -> double)
    (la : string) (a : double) (bs : string) (t : ascii) (rest : string) :
  lexes_as pow la a -> blanks bs = true ->
  is_operand_char t = false -> is_blank t = false -> is_dispatched t = false ->
  calculate pow (la ++ bs ++ String t rest) = Some (a, SYNTAX_ERROR, rest).
Proof.
  intros Ha Hbs Ho Hb Hd. unfold calculate.
  apply calculate_loop_error with (w1 := set_operand init_window 0 a).
  unfold parse_expr. cbn [init_window window_at Nat.sub].
  rewrite (parse_expr_loop_blanks pow _ _ _ _ _ _ _ Ha Hbs Hb Ho).
  now rewrite (parse_expr_loop_unknown pow _ _ _ _ _ _ Ha Ho Hb Hd).
Qed.

Lemma unexpected_character_rejected_witness :
  run ("3" ++ "  " ++ String "@" ("4" ++ LF)) = Some (3%float, SYNTAX_ERROR, "4" ++ LF).
Proof.
  exact (unexpected_character_rejected PowModel.pow "3" 3%float "  " "@" ("4" ++ LF)
           ltac:(lexes) eq_refl eq_refl eq_refl eq_refl).
Defined.

(** A [*] or a [/] where an operand starts, at the start of the input or
    straight after an operator, ends the evaluation with [SYNTAX_ERROR]
    before anything is computed. *)
Theorem operator_for_operand_rejected (pow : double -> double -> double)
    (la : string) (a : double) (op c : ascii) (rest : string) :
  lexes_as pow la a -> is_arith_op op = true -> c = "*" \/ c = "/" ->
  calculate pow (String c rest) = Some (0%float, SYNTAX_ERROR, rest)
  /\ calculate pow (la ++ String op (String c rest)) = Some (a, SYNTAX_ERROR, rest).
Proof.
  intros Ha Hop Hc. split; unfold calculate.
  - apply calculate_loop_error with (w1 := set_operand init_window 0 0%float).
    unfold parse_expr. cbn [init_window window_at Nat.sub].
    now rewrite (parse_expr_loop_operator_first pow _ _ c rest Hc).
  - apply calculate_loop_error with
      (w1 := Window (Array3 a 0%float 0%float) (Array3 op "+" "+") 1).
    unfold parse_expr. cbn [init_window window_at Nat.sub].
    rewrite (parse_expr_loop_operator pow _ _ _ _ op _ Ha Hop).
    now rewrite (parse_expr_loop_operator_first pow _ _ c rest Hc).
Qed.

Lemma operator_for_operand_rejected_witness :
  run (String "/" ("2" ++ LF)) = Some (0%float, SYNTAX_ERROR, "2" ++ LF)
  /\ run ("3" ++ String "+" (String "/" ("2" ++ LF)))
     = Some (3%float, SYNTAX_ERROR, "2" ++ LF).
Proof.
  exact (operator_for_operand_rejected PowModel.pow "3" 3%float "+" "/" ("2" ++ LF)
           ltac:(lexes) eq_refl (or_intror eq_refl)).
Defined.

(** A group-free expression in parentheses: when [E], which holds no
    opening parenthesis and no letter [o], evaluates to [v] on a line of its
    own, [(E)] on a line of its own evaluates to [v] too. *)
Theorem group_as_line (pow : double -> double -> double) (E : string) (v : double) :
  plain E = true ->
  calculate pow (E ++ LF) = Some (v, END, EmptyString) ->
  calculate pow ("(" ++ E ++ ")" ++ LF) = Some ((v + 0)%float, END, EmptyString)
  /\ same_number (v + 0)%float v.
Proof.
  intros HE H. split; [| apply FloatFacts.add_zero_same].
  unfold calculate in H. change (E ++ LF) with (E ++ String newline EmptyString) in H.
  set (fuel := S (String.length (E ++ String newline EmptyString))) in H.
  apply evaluates_calculate. exists (S fuel).
  destruct (calculate_loop_eval pow fuel init_window E HE)
    as [Hn | [(v1 & st1 & pre1 & Hst & _ & Hr) | (v1 & Hr)]].
  - rewrite (Hn newline EmptyString eq_refl) in H. discriminate.
  - rewrite (Hr newline EmptyString eq_refl) in H. inversion H; subst.
    destruct Hst; discriminate.
  - rewrite (Hr newline EmptyString eq_refl) in H. inversion H; subst.
    exact (calculate_loop_lone_group pow fuel (E ++ ")" ++ LF) v newline EmptyString
             (Hr ")" LF eq_refl) eq_refl).
Qed.

Lemma group_as_line_witness :
  run ("(" ++ "1+2*3" ++ ")" ++ LF) = Some ((7 + 0)%float, END, EmptyString)
  /\ same_number (7 + 0)%float 7%float.
Proof. exact (group_as_line PowModel.pow "1+2*3" 7%float eq_refl eq_refl). Defined.

(** A closing parenthesis with no opening one ends the evaluation as the
    line end does: a text without opening parenthesis and letter [o] that
    evaluates to [v] up to the line end evaluates to [v] up to a closing
    parenthesis put in its place, with the status [CLOSE] and what follows
    unread; and the other way round. *)
Theorem unmatched_close_ends (pow : double -> double -> double)
    (pre : string) (v : double) (r1 r2 : string) :
  plain pre = true ->
  calculate pow (pre ++ LF ++ r2) = Some (v, END, r2)
  <-> calculate pow (pre ++ ")" ++ r1) = Some (v, CLOSE, r1).
Proof.
  intros Hpre.
  change (pre ++ LF ++ r2) with (pre ++ String newline r2).
  change (pre ++ ")" ++ r1) with (pre ++ String ")" r1).
  split; intros H; apply evaluates_calculate; unfold calculate in H.
  - set (fuel := S (String.length (pre ++ String newline r2))) in H.
    exists fuel.
    destruct (calculate_loop_eval pow fuel init_window pre Hpre)
      as [Hn | [(v1 & st1 & pre1 & Hst & _ & Hr) | (v1 & Hr)]].
    + rewrite (Hn newline r2 eq_refl) in H. discriminate.
    + rewrite (Hr newline r2 eq_refl) in H. inversion H; subst.
      destruct Hst; discriminate.
    + rewrite (Hr newline r2 eq_refl) in H. inversion H; subst.
      exact (Hr ")" r1 eq_refl).
  - set (fuel := S (String.length (pre ++ String ")" r1))) in H.
    exists fuel.
    destruct (calculate_loop_eval pow fuel init_window pre Hpre)
      as [Hn | [(v1 & st1 & pre1 & Hst & _ & Hr) | (v1 & Hr)]].
    + rewrite (Hn ")" r1 eq_refl) in H. discriminate.
    + rewrite (Hr ")" r1 eq_refl) in H. inversion H as [[Hv Hs Hl]].
      exfalso. apply (f_equal String.length) in Hl.
      rewrite length_append in Hl. cbn in Hl. lia.
    + rewrite (Hr ")" r1 eq_refl) in H. inversion H; subst.
      exact (Hr newline r2 eq_refl).
Qed.

Lemma unmatched_close_ends_witness :
  run ("1+2*3" ++ LF ++ "4" ++ LF) = Some (7%float, END, "4" ++ LF)
  <-> run ("1+2*3" ++ ")" ++ "+5" ++ LF) = Some (7%float, CLOSE, "+5" ++ LF).
Proof.
  exact (unmatched_close_ends PowModel.pow "1+2*3" 7%float ("+5" ++ LF) ("4" ++ LF)
           eq_refl).
Defined.

(** A sign straight before a group is an operand of its own, a zero of that
    sign, which the group multiplies: when the evaluation of [inp] stops at
    a closing parenthesis with the value [v], followed by a terminator,
    [-(inp] evaluates to (-0)*v and [+(inp] to 0*v, not to -v and v. *)
Theorem sign_before_group (pow : double -> double -> double) (inp : string)
    (v : double) (t : ascii) (rest : string) :
  calculate pow inp = Some (v, CLOSE, String t rest) ->
  is_terminator t = true ->
  calculate pow ("-(" ++ inp)
  = Some (((-0) * v + 0)%float, terminator_status t, rest)
  /\ calculate pow ("+(" ++ inp)
     = Some ((0 * v + 0)%float, terminator_status t, rest).
Proof.
  intros H Ht. split; apply evaluates_calculate; exists (S (S (String.length inp))).
  - exact (calculate_loop_implicit_alone pow _ "-" _ inp v t rest
             (sign_lexes pow "-" (-1)%float (or_introl (conj eq_refl eq_refl))) H Ht).
  - exact (calculate_loop_implicit_alone pow _ "+" _ inp v t rest
             (sign_lexes pow "+" 1%float (or_intror (conj eq_refl eq_refl))) H Ht).
Qed.

Lemma sign_before_group_witness :
  run ("-(" ++ "3)" ++ LF) = Some (((-0) * 3 + 0)%float, END, EmptyString)
  /\ run ("+(" ++ "3)" ++ LF) = Some ((0 * 3 + 0)%float, END, EmptyString).
Proof.
  exact (sign_before_group PowModel.pow ("3)" ++ LF) 3%float newline EmptyString
           eq_refl eq_refl).
Defined.

(** [calculate] stays inside its arrays: on every input, each index
    through which it stores into [operators] or [operands], in the outer
    call and in every nested one, is 0, 1 or 2; and the index [compute]
    takes from [highest_order_op] is 0 or 1. *)
Theorem stores_within_bounds (pow : double -> double -> double) (inp : string) :
  (exists r log,
     calculate_stores pow inp = Some (r, log)
     /\ calculate pow inp = Some r
     /\ Forall (fun i => i <= 2) log)
  /\ forall ops, highest_order_op ops <= 1.
Proof.
  split.
  - destruct (calculate_loop_total pow (S (String.length inp)) init_window inp)
      as (r & E); [lia | cbn; lia | exact init_window_arith |].
    unfold calculate, calculate_stores. rewrite E.
    rewrite calculate_loop_stores_erase in E.
    destruct (calculate_loop_stores pow (S (String.length inp)) init_window inp)
      as [[r' log] |] eqn:ES; [| discriminate].
    cbn in E. inversion E; subst. exists r, log. repeat split.
    apply (calculate_loop_stores_bound pow (S (String.length inp)) init_window inp r log);
      [cbn; lia | exact init_window_arith | exact ES].
  - intros ops. destruct (highest_order_op_cases ops) as [-> | ->]; lia.
Qed.

(** A pass of [parse_expr] fills the window from the cursor on: it leaves
    the operands and operators under the cursor as they were, moves the
    cursor forward only and never beyond 3, and returns [COMPUTE] exactly
    when the cursor has reached 3. *)
Theorem parse_expr_frame (pow : double -> double -> double) (w : window)
    (inp : string) (st : ascii) (w' : window) (rest : string) :
  window_at w <= 3 ->
  parse_expr pow w inp = (st, w', rest) ->
  window_at w <= window_at w' <= 3
  /\ (st = COMPUTE <-> window_at w' = 3)
  /\ below (window_at w) w w'.
Proof.
  intros Hat H. unfold parse_expr in H.
  apply (parse_expr_loop_frame pow (3 - window_at w) w inp st w' rest);
    [lia | exact H].
Qed.

Lemma parse_expr_frame_witness :
  1 <= 3 <= 3
  /\ (COMPUTE = COMPUTE <-> 3 = 3)
  /\ below 1 (Window (Array3 7%float 0%float 0%float) (Array3 "*" "+" "+") 1)
       (Window (Array3 7%float 2%float 3%float) (Array3 "*" "-" "/") 3).
Proof.
  exact (parse_expr_frame PowModel.pow
           (Window (Array3 7%float 0%float 0%float) (Array3 "*" "+" "+") 1)
           ("2-3/4" ++ LF) COMPUTE
           (Window (Array3 7%float 2%float 3%float) (Array3 "*" "-" "/") 3)
           ("4" ++ LF) (le_S _ _ (le_S _ _ (le_n 1))) eq_refl).
Defined.

(** What follows a group at the start of an expression is added to it: when
    the evaluation of [inp] stops at a closing parenthesis with the value
    [v] and leaves an operand [a], with its sign if it has one, and a
    terminator, the evaluation of [inp] behind an opening parenthesis
    returns v + a.  So [(E)+a] and [(E)-a] have their usual value, and [(E)a]
    is v + a as well. *)
Theorem operand_after_group (pow : double -> double -> double) (inp : string)
    (v : double) (la : string) (a : double) (t : ascii) (rest : string) :
  lexes_as pow la a ->
  calculate pow inp = Some (v, CLOSE, la ++ String t rest) ->
  is_terminator t = true ->
  calculate pow ("(" ++ inp)
  = Some ((v + 0 + a + 0)%float, terminator_status t, rest).
Proof.
  intros Ha H Ht. apply evaluates_calculate. exists (S (S (String.length inp))).
  exact (calculate_loop_group_operand pow _ inp v la a t rest Ha H Ht).
Qed.

Lemma operand_after_group_witness :
  run ("(" ++ "1+2)-4" ++ LF) = Some ((3 + 0 + (-4) + 0)%float, END, EmptyString).
Proof.
  exact (operand_after_group PowModel.pow ("1+2)-4" ++ LF) 3%float "-4" (-4)%float
           newline EmptyString ltac:(lexes) eq_refl eq_refl).
Defined.

(** Two groups side by side are added, not multiplied: [contains_nest_op]
    finds no [(] among the operators when the second group opens where an
    operand is expected.  When the first group has the value [v1] and the
    second, followed by a terminator, the value [v2], the result is
    v1 + v2. *)
Theorem adjacent_groups_add (pow : double -> double -> double) (inp : string)
    (v1 : double) (inp2 : string) (v2 : double) (t : ascii) (rest : string) :
  calculate pow inp = Some (v1, CLOSE, "(" ++ inp2) ->
  calculate pow inp2 = Some (v2, CLOSE, String t rest) ->
  is_terminator t = true ->
  calculate pow ("(" ++ inp)
  = Some ((v1 + 0 + v2 + 0)%float, terminator_status t, rest).
Proof.
  intros H1 H2 Ht. apply evaluates_calculate.
  exists (S (S (S (String.length inp + String.length inp2)))).
  apply (calculate_loop_group_group pow _ inp v1 inp2 v2 t rest).
  - apply (calculate_loop_more_fuel pow _ _ _ _ H1). lia.
  - apply (calculate_loop_more_fuel pow _ _ _ _ H2). lia.
  - exact Ht.
Qed.

Lemma adjacent_groups_add_witness :
  run ("(" ++ "1+2)(3+4)" ++ LF) = Some ((3 + 0 + 7 + 0)%float, END, EmptyString).
Proof.
  exact (adjacent_groups_add PowModel.pow ("1+2)(3+4)" ++ LF) 3%float
           ("3+4)" ++ LF) 7%float newline EmptyString eq_refl eq_refl eq_refl).
Defined.

(** An operand followed at once by a parenthesised group multiplies what
    the nested evaluation of the group returns: for every number a the lexer
    reads from a literal, and every text E that the evaluator, entered after
    the opening parenthesis, evaluates to v up to its closing parenthesis,
    the input [a(E)] and a line end evaluates, with the success status, to
    the number a*v; in particular [3(4+1)] evaluates to 15. *)
Theorem implicit_multiplication (pow : double -> double -> double)
    (la : string) (a : double) (E : string) (v : double) :
  lexes_as pow la a ->
  calculate pow (E ++ ")" ++ LF) = Some (v, CLOSE, LF) ->
  (exists r,
     calculate pow (la ++ "(" ++ E ++ ")" ++ LF) = Some (r, END, EmptyString)
     /\ same_number r (a * v)%float)
  /\ calculate pow ("3(4+1)" ++ LF) = Some (15%float, END, EmptyString).
Proof.
  intros Ha HE. split; [| vm_compute; reflexivity].
  pose proof Ha as (c0 & l' & Hla & _).
  exists (a * v + 0)%float. split; [| apply FloatFacts.add_zero_same].
  unfold calculate in *. cbn [append] in *.
  set (rest := E ++ String ")" LF) in *.
  assert (Hfuel : exists n, String.length (la ++ String "(" rest) = S n
                            /\ S (String.length rest) <= S n).
  { subst la. cbn [append String.length]. eexists; split; [reflexivity |].
    rewrite length_append. cbn. lia. }
  destruct Hfuel as (n & Hn & Hle).
  rewrite (calculate_loop_implicit_group pow _ init_window
             (set_operator (set_operand init_window 0 a) 0 "(")
             _ rest LF v).
  - rewrite Hn.
    rewrite (calculate_loop_finish pow n _
               (Window (Array3 (a * v + 0)%float 0%float 0%float)
                       (Array3 "+" "+" "+") 1)
               LF EmptyString "n").
    + cbn -[PrimFloat.add PrimFloat.mul]. now rewrite !FloatFacts.add_zero_idem.
    + reflexivity.
    + now left.
  - unfold parse_expr. cbn [init_window window_at Nat.sub].
    now rewrite (parse_expr_loop_open pow _ _ _ _ _ Ha).
  - reflexivity.
  - reflexivity.
  - rewrite Hn. exact (calculate_loop_more_fuel pow _ _ _ _ HE (S n) Hle).
Qed.

Lemma implicit_multiplication_witness :
  (exists r,
     run ("3" ++ "(" ++ "4+1" ++ ")" ++ LF) = Some (r, END, EmptyString)
     /\ same_number r (3 * 5)%float)
  /\ run ("3(4+1)" ++ LF) = Some (15%float, END, EmptyString).
Proof.
  exact (implicit_multiplication PowModel.pow "3" 3%float "4+1" 5%float
           ltac:(lexes) eq_refl).
Defined.

(** * The claims *)

(** C1 (the code departs from the claim).  The claim's own input,
    [1 + 2 * 3] and a line end, does not evaluate to 7: the blank after the
    first operator is taken for an empty operand, the digit after it for an
    unknown operator, and the evaluator stops with the syntax-error status,
    returning the first operand and leaving the rest of the line unread.
    Without the blanks after the operators the same expression gives 7. *)
Theorem precedence_example_with_blanks (pow : double -> double -> double) :
  calculate pow ("1 + 2 * 3" ++ LF) = Some (1%float, SYNTAX_ERROR, " * 3" ++ LF)
  /\ calculate pow ("1+2*3" ++ LF) = Some (7%float, END, EmptyString)
  /\ calculate pow ("1 +2 *3" ++ LF) = Some (7%float, END, EmptyString).
Proof. repeat split; vm_compute; reflexivity. Qed.




(** C3 (the code departs from the claim).  A group that opens an expression
    evaluates to the value of its contents, and the sibling path, a group
    after an operator, multiplies as expected; but after the group the loop
    goes back to reading an operand, so a [*] that follows the closing
    parenthesis is the syntax error of [parse_operand]: [(1+2)*3] stops with
    the syntax-error status and the value 3, where [1+2] in the same place
    gives 1+2*3 = 7 and the claim gives 9.  The claim's spelling with blanks
    stops even earlier, inside the group. *)
Theorem group_then_operator (pow : double -> double -> double) :
  calculate pow ("(1+2)" ++ LF) = Some (3%float, END, EmptyString)
  /\ calculate pow ("3*(1+2)" ++ LF) = Some (9%float, END, EmptyString)
  /\ calculate pow ("1+2*3" ++ LF) = Some (7%float, END, EmptyString)
  /\ calculate pow ("(1+2)*3" ++ LF) = Some (3%float, SYNTAX_ERROR, "3" ++ LF)
  /\ calculate pow ("(1 + 2) * 3" ++ LF) = Some (1%float, SYNTAX_ERROR, ") * 3" ++ LF).
Proof. repeat split; vm_compute; reflexivity. Qed.

(** C4 (the code departs from the claim).  A blank between an operand and
    the operator after it is skipped; a blank after an operator, or before
    the first operand, is not: it ends an empty operand, and the character
    after it is then read as an operator.  The example the source gives for
    a group after an operator, [89 * (90+10)], evaluates to 89 * 0 * 100. *)
Theorem blank_after_operator (pow : double -> double -> double) :
  calculate pow ("1+2" ++ LF) = Some (3%float, END, EmptyString)
  /\ calculate pow ("1 +2" ++ LF) = Some (3%float, END, EmptyString)
  /\ calculate pow ("1+ 2" ++ LF) = Some (1%float, SYNTAX_ERROR, LF)
  /\ calculate pow ("1+" ++ str tab ++ "2" ++ LF) = Some (1%float, SYNTAX_ERROR, LF)
  /\ calculate pow (" 1+2" ++ LF) = Some (0%float, SYNTAX_ERROR, "+2" ++ LF)
  /\ calculate pow ("89*(90+10)" ++ LF) = Some (8900%float, END, EmptyString)
  /\ calculate pow ("89 * (90+10)" ++ LF) = Some (0%float, END, EmptyString).
Proof. repeat split; vm_compute; reflexivity. Qed.

(** C5 (the code departs from the claim).  An operand followed at once by a
    group multiplies what the nested evaluation of the group returns, and
    [3(4+1)] evaluates to 15.  But the group is evaluated by the loop that
    evaluates every expression, and meets its defects: a blank after an
    operator inside the group is a syntax error, a fourth operand inside
    the group meets the operand the window has kept, and an operator after
    an inner group is a syntax error.  So [3(4 + 1)] stops with the
    syntax-error status and the value 12, [3(1+2*3+4)] evaluates to
    75 = 3 * 25, and [3((1+2)*3)] stops with the syntax-error status and the
    value 9, where the claim gives 15, 33 and 27. *)
Theorem implicit_product_diverges (pow : double -> double -> double) :
  calculate pow ("3(4+1)" ++ LF) = Some (15%float, END, EmptyString)
  /\ calculate pow ("3(4 + 1)" ++ LF) = Some (12%float, SYNTAX_ERROR, ")" ++ LF)
  /\ calculate pow ("1+2*3+4)" ++ LF) = Some (25%float, CLOSE, LF)
  /\ calculate pow ("3(1+2*3+4)" ++ LF) = Some (75%float, END, EmptyString)
  /\ calculate pow ("3((1+2)*3)" ++ LF) = Some (9%float, SYNTAX_ERROR, "3)" ++ LF).
Proof. repeat split; vm_compute; reflexivity. Qed.

(** C6 (the code departs from the claim).  The counter of fractional digits
    is a [char]: past 127 digits it wraps, and the 256th fractional digit is
    divided by [pow(10, 0)], on a signed [char] as on an unsigned one.  The
    literal of 255 zeros and a one after the point denotes 1e-256, a double;
    the evaluator returns 1, for every [pow] for which [pow(10, 0)] is 1 and
    the powers of ten are non-zero numbers. *)
Theorem long_fraction_wraps (pow : double -> double -> double) :
  pow 10%float 0%float = 1%float ->
  (forall k : Z, (-128 <= k <= 127)%Z -> (0 / pow 10 (double_of_int k) = 0)%float) ->
  calculate pow ("." ++ repeat_char 255 "0" ++ "1" ++ LF)
  = Some (1%float, END, EmptyString).
Proof.
  intros H0 H.
  pose proof (calculate_one pow _ _ (long_fraction_lexes pow H0 H)) as E.
  rewrite append_assoc in E. cbn [append] in E |- *.
  rewrite append_assoc in E. exact E.
Qed.

Lemma long_fraction_wraps_witness :
  run ("." ++ repeat_char 255 "0" ++ "1" ++ LF) = Some (1%float, END, EmptyString).
Proof. exact (long_fraction_wraps PowModel.pow eq_refl pow_model_tens). Defined.

(** C7 (the code departs from the claim).  An operator followed by a blank
    and a multiplicative operator, as in the claim's own example, is
    accepted when no blank follows the second operator: [3 + *4] evaluates
    to 3 + 0 * 4 and [3* *4] to 3 * 0 * 4, with the success status.  The
    letter [o] in the operator position is taken for the status code of an
    opening parenthesis: [3o4)] evaluates to 4 with the success status. *)
Theorem malformations_accepted (pow : double -> double -> double) :
  calculate pow ("3 + *4" ++ LF) = Some (3%float, END, EmptyString)
  /\ calculate pow ("3* *4" ++ LF) = Some (0%float, END, EmptyString)
  /\ calculate pow ("3o4)" ++ LF) = Some (4%float, END, EmptyString).
Proof. repeat split; vm_compute; reflexivity. Qed.

(** C8.  A division by zero is no syntax error: for all numbers a, b, c read
    from literals, zero included, [a/b] evaluates with the success status to
    the IEEE quotient a/b, and the quotient goes through the operations after
    it as any other double: [a/b+c] evaluates to (a/b)+c and [a*b/c] to
    (a*b)/c.  In particular [1/0] evaluates to infinity, [0/0] to NaN,
    [1/0-1] to infinity and [1/0-1/0] to NaN, each with the success
    status. *)
Theorem division_by_zero_propagates (pow : double -> double -> double)
    (la lb lc : string) (a b c : double) :
  lexes_as pow la a -> lexes_as pow lb b -> lexes_as pow lc c ->
  (exists r,
     calculate pow (la ++ "/" ++ lb ++ LF) = Some (r, END, EmptyString)
     /\ same_number r (a / b)%float)
  /\ calculate pow (la ++ "/" ++ lb ++ "+" ++ lc ++ LF)
     = Some ((a / b + c)%float, END, EmptyString)
  /\ calculate pow (la ++ "*" ++ lb ++ "/" ++ lc ++ LF)
     = Some ((a * b / c)%float, END, EmptyString)
  /\ calculate pow ("1/0" ++ LF) = Some (infinity, END, EmptyString)
  /\ calculate pow ("0/0" ++ LF) = Some (nan, END, EmptyString)
  /\ calculate pow ("1/0-1" ++ LF) = Some (infinity, END, EmptyString)
  /\ calculate pow ("1/0-1/0" ++ LF) = Some (nan, END, EmptyString).
Proof.
  intros Ha Hb Hc. cbn [append].
  split; [| repeat split; try (vm_compute; reflexivity)].
  - exists (a / b + 0)%float. split; [| apply FloatFacts.add_zero_same].
    now rewrite (calculate_two pow _ _ _ _ "/" Ha Hb eq_refl).
  - now rewrite (calculate_three pow _ _ _ _ _ _ "/" "+" Ha Hb Hc eq_refl eq_refl).
  - now rewrite (calculate_three pow _ _ _ _ _ _ "*" "/" Ha Hb Hc eq_refl eq_refl).
Qed.

Lemma division_by_zero_propagates_witness :
  (exists r,
     run ("1" ++ "/" ++ "0" ++ LF) = Some (r, END, EmptyString)
     /\ same_number r (1 / 0)%float)
  /\ run ("1/0+2" ++ LF) = Some (infinity, END, EmptyString)
  /\ run ("1*0/2" ++ LF) = Some (0%float, END, EmptyString)
  /\ run ("1/0" ++ LF) = Some (infinity, END, EmptyString)
  /\ run ("0/0" ++ LF) = Some (nan, END, EmptyString)
  /\ run ("1/0-1" ++ LF) = Some (infinity, END, EmptyString)
  /\ run ("1/0-1/0" ++ LF) = Some (nan, END, EmptyString).
Proof.
  exact (division_by_zero_propagates PowModel.pow "1" "0" "2" 1%float 0%float 2%float
           ltac:(lexes) ltac:(lexes) ltac:(lexes)).
Defined.

(** C9 (the code departs from the claim).  The status a nested call leaves
    at the end of the line is ['n'], and the test after the collapse compares
    it with the newline character: the outer loop does not stop, it reads
    on.  On [(1], a line end, [2] and a line end the result is 1 + 2, and
    both lines are read; when nothing follows the first line, the read at
    the end of input turns the status into the syntax error. *)
Theorem nested_end_reads_on (pow : double -> double -> double) :
  calculate pow ("(1" ++ LF ++ "2" ++ LF) = Some (3%float, END, EmptyString)
  /\ calculate pow ("(1" ++ LF) = Some (1%float, SYNTAX_ERROR, EmptyString).
Proof. split; vm_compute; reflexivity. Qed.

(** C10.  Every collapse leaves the trailing slot at its defaults and the
    cursor at 1 or 2: each of the three shift modes does; [compute] ends in
    one of them whenever the trailing operator is an arithmetic one, and
    touches nothing otherwise; and in every run of the evaluator, on any
    input, each call of [compute] returns such a window. *)
Theorem collapse_resets_trailing_slot (pow : double -> double -> double)
    (w : window) (inp : string) :
  collapsed (shift_window 1 w)
  /\ collapsed (shift_window 2 w)
  /\ collapsed (shift_window 3 w)
  /\ (if is_arith_op (get (operators w) 2) then collapsed (compute pow w)
      else compute pow w = w)
  /\ exists r log,
       calculate_log pow inp = Some (r, log)
       /\ calculate pow inp = Some r
       /\ Forall collapsed log.
Proof.
  repeat split; try (cbn; auto; fail).
  - destruct (is_arith_op (get (operators w) 2)) eqn:H.
    + now apply compute_collapsed.
    + unfold compute, is_arith_op in *. cbv zeta.
      destruct (get (operators w) 2 =? "+"), (get (operators w) 2 =? "-"),
        (get (operators w) 2 =? "*"), (get (operators w) 2 =? "/"),
        (get (operators w) 2 =? "^"); try discriminate. reflexivity.
  - destruct (calculate_loop_log_total pow (S (String.length inp)) init_window inp)
      as (v & st & inp' & log & E & _ & Hlog);
      [lia | cbn; lia | repeat split; reflexivity |].
    exists (v, st, inp'), log. unfold calculate_log, calculate.
    rewrite calculate_loop_log_erase, E. auto.
Qed.
